(** * image_crawler.py: a shallow embedding and its checked properties

    The development follows [src/image_crawler.py].  Python strings are
    modelled as [string] (code points below 256), Python sets of strings as
    [gset string], exceptions as an explicit result type, and the Selenium
    session as a page graph supplied by the environment. *)

From Stdlib Require Import ZArith Ascii String.
From stdpp Require Import base option list gmap strings sorting.

Local Open Scope Z_scope.

(** ** Python values, exceptions and string methods *)
Module Py.

(** The exception classes that occur.  [KeyboardInterrupt] derives from
    [BaseException] only, every other one from [Exception]. *)
Inductive exn : Type :=
  | AttributeError
  | TypeError
  | ValueError
  | OSError
  | TimeoutException
  | WebDriverException
  | PlainException
  | KeyboardInterrupt.

Definition is_Exception (e : exn) : bool :=
  match e with
  | KeyboardInterrupt => false
  | _ => true
  end.

(** The result of evaluating an expression: a value or a raised exception. *)
Inductive res (A : Type) : Type :=
  | Ok (a : A)
  | Raise (e : exn).
Arguments Ok {A} a.
Arguments Raise {A} e.

Definition bind {A B : Type} (m : res A) (k : A → res B) : res B :=
  match m with
  | Ok a => k a
  | Raise e => Raise e
  end.

Notation "'do' x <- m ; k" := (bind m (fun x => k))
  (at level 10, x name, m at level 100, k at level 200, only parsing).

(** [try: m except Exception: h]. *)
Definition try_except {A : Type} (m : res A) (h : exn → res A) : res A :=
  match m with
  | Ok a => Ok a
  | Raise e => if is_Exception e then h e else Raise e
  end.

(** Truth value of an [Optional[str]]: [None] and [''] are false. *)
Definition truthy (o : option string) : bool :=
  match o with
  | Some s => negb (String.eqb s EmptyString)
  | None => false
  end.

(** [a or b] on [Optional[str]] operands. *)
Definition or_else (a b : option string) : option string :=
  if truthy a then a else b.

(** *** [str] methods *)

Definition ascii_in (c : ascii) (cs : string) : bool :=
  existsb (Ascii.eqb c) (list_ascii_of_string cs).

(** [c in s] for a one-character [c]. *)
Fixpoint has_char (c : ascii) (s : string) : bool :=
  match s with
  | EmptyString => false
  | String a t => Ascii.eqb a c || has_char c t
  end.

(** [s.find(c)] for a one-character [c]; [None] stands for [-1]. *)
Fixpoint find (c : ascii) (s : string) : option nat :=
  match s with
  | EmptyString => None
  | String a t => if Ascii.eqb a c then Some 0%nat else S <$> find c t
  end.

(** [s.rfind(c)]. *)
Fixpoint rfind (c : ascii) (s : string) : option nat :=
  match s with
  | EmptyString => None
  | String a t =>
      match rfind c t with
      | Some i => Some (S i)
      | None => if Ascii.eqb a c then Some 0%nat else None
      end
  end.

(** [s[:n]] and [s[n:]]. *)
Fixpoint str_take (n : nat) (s : string) : string :=
  match n, s with
  | S n', String a t => String a (str_take n' t)
  | _, _ => EmptyString
  end.

Fixpoint str_drop (n : nat) (s : string) : string :=
  match n, s with
  | S n', String _ t => str_drop n' t
  | _, _ => s
  end.

(** [s.find(c, start)]. *)
Definition find_from (c : ascii) (start : nat) (s : string) : option nat :=
  (λ i, (start + i)%nat) <$> find c (str_drop start s).

(** [s.startswith(p)]. *)
Definition startswith (p s : string) : bool := String.prefix p s.

(** [sub in s]. *)
Fixpoint contains (sub s : string) : bool :=
  String.prefix sub s ||
  match s with
  | EmptyString => false
  | String _ t => contains sub t
  end.

(** [s.partition(c)]: the parts before and after the first [c], and whether
    [c] was found. *)
Definition partition (c : ascii) (s : string) : string * bool * string :=
  match find c s with
  | Some i => (str_take i s, true, str_drop (S i) s)
  | None => (s, false, EmptyString)
  end.

(** [s.rpartition(c)[2]]. *)
Definition after_last (c : ascii) (s : string) : string :=
  match rfind c s with
  | Some i => str_drop (S i) s
  | None => s
  end.

(** [s.split(c)]. *)
Fixpoint split (c : ascii) (s : string) : list string :=
  match s with
  | EmptyString => [EmptyString]
  | String a t =>
      if Ascii.eqb a c then EmptyString :: split c t
      else match split c t with
           | w :: ws => String a w :: ws
           | [] => [String a EmptyString]
           end
  end.

(** [sep.join(l)]. *)
Definition join (sep : string) (l : list string) : string := String.concat sep l.

(** [s.lstrip(chars)], [s.strip(chars)] and the removal of single characters
    ([s.replace(c, '')] for each [c] of a set). *)
Fixpoint lstrip (p : ascii → bool) (s : string) : string :=
  match s with
  | EmptyString => EmptyString
  | String a t => if p a then lstrip p t else s
  end.

Fixpoint rstrip (p : ascii → bool) (s : string) : string :=
  match s with
  | EmptyString => EmptyString
  | String a t =>
      match rstrip p t with
      | EmptyString => if p a then EmptyString else String a EmptyString
      | t' => String a t'
      end
  end.

Definition strip (p : ascii → bool) (s : string) : string := rstrip p (lstrip p s).

Fixpoint remove (p : ascii → bool) (s : string) : string :=
  match s with
  | EmptyString => EmptyString
  | String a t => if p a then remove p t else String a (remove p t)
  end.

Fixpoint str_forall (p : ascii → bool) (s : string) : bool :=
  match s with
  | EmptyString => true
  | String a t => p a && str_forall p t
  end.

Definition code (c : ascii) : N := N_of_ascii c.

Definition between (lo hi : N) (c : ascii) : bool :=
  (lo <=? code c)%N && (code c <=? hi)%N.

Definition is_upper (c : ascii) : bool := between 65 90 c.
Definition is_lower (c : ascii) : bool := between 97 122 c.
Definition is_digit (c : ascii) : bool := between 48 57 c.
(** [c.isascii() and c.isalpha()]. *)
Definition is_ascii_alpha (c : ascii) : bool := is_upper c || is_lower c.

(** [str.lower] on code points below 256: A-Z and the Latin-1 capitals
    (0xC0-0xDE except the multiplication sign 0xD7) move up by 32. *)
Definition lower_char (c : ascii) : ascii :=
  if is_upper c || (between 192 222 c && negb (code c =? 215)%N)
  then ascii_of_N (code c + 32)
  else c.

Fixpoint lower (s : string) : string :=
  match s with
  | EmptyString => EmptyString
  | String a t => String (lower_char a) (lower t)
  end.

End Py.

(** ** The parts of Python's [urllib.parse] the crawler calls

    [urljoin] and [urlparse(...).netloc] belong to the Python standard
    library, not to the repository; they are transcribed here from
    CPython 3.11's [Lib/urllib/parse.py] for [str] arguments.  Two library
    checks are treated specially: [_checknetloc] only rejects hosts whose
    NFKC normal form introduces one of [/?#@:], which no code point below
    256 does, so it always passes here; [_check_bracketed_host] defers to
    the [ipaddress] module and is a parameter of the model (the constant
    [true] gives the behaviour of interpreters that predate the check). *)
Module Urllib.
Import Py.

Definition uses_relative : list string :=
  [EmptyString; "ftp"; "http"; "gopher"; "nntp"; "imap"; "wais"; "file"; "https";
   "shttp"; "mms"; "prospero"; "rtsp"; "rtspu"; "sftp"; "svn"; "svn+ssh";
   "ws"; "wss"].

Definition uses_netloc : list string :=
  [EmptyString; "ftp"; "http"; "gopher"; "nntp"; "telnet"; "imap"; "wais"; "file";
   "mms"; "https"; "shttp"; "snews"; "prospero"; "rtsp"; "rtspu"; "rsync";
   "svn"; "svn+ssh"; "sftp"; "nfs"; "git"; "git+ssh"; "ws"; "wss"].

Definition uses_params : list string :=
  [EmptyString; "ftp"; "hdl"; "prospero"; "http"; "imap"; "https"; "shttp"; "rtsp";
   "rtspu"; "sip"; "sips"; "mms"; "sftp"; "tel"].

Definition mem (s : string) (l : list string) : bool := existsb (String.eqb s) l.

Definition scheme_char (c : ascii) : bool :=
  is_lower c || is_upper c || is_digit c || ascii_in c "+-.".

(** [_WHATWG_C0_CONTROL_OR_SPACE]: code points 0 to 32. *)
Definition c0_control_or_space (c : ascii) : bool := (code c <=? 32)%N.

(** [_UNSAFE_URL_BYTES_TO_REMOVE]: tab, carriage return, line feed. *)
Definition unsafe_url_byte (c : ascii) : bool :=
  (code c =? 9)%N || (code c =? 13)%N || (code c =? 10)%N.

Record SplitResult : Type := mkSplit {
  s_scheme : string;
  s_netloc : string;
  s_path : string;
  s_query : string;
  s_fragment : string
}.

Record ParseResult : Type := mkParse {
  scheme : string;
  netloc : string;
  path : string;
  params : string;
  query : string;
  fragment : string
}.

(** [_splitnetloc(url, 2)]: the host part runs from index 2 to the earliest
    of [/], [?] and [#]. *)
Definition splitnetloc2 (url : string) : string * string :=
  let delim :=
    foldl (λ d c, match find_from c 2 url with
                  | Some w => Nat.min d w
                  | None => d
                  end)
          (String.length url) (list_ascii_of_string "/?#") in
  (str_take (delim - 2) (str_drop 2 url), str_drop delim url).

Section parse.
Variable check_bracketed_host : string → bool.

Definition check_bracketed_netloc (nl : string) : res unit :=
  let hostname_and_port := after_last "@" nl in
  let '(before_bracket, have_open_br, bracketed) := partition "[" hostname_and_port in
  if have_open_br then
    if negb (String.eqb before_bracket EmptyString) then Raise ValueError
    else
      let '(hostname, _, port) := partition "]" bracketed in
      if negb (String.eqb port EmptyString) && negb (startswith ":" port) then Raise ValueError
      else if check_bracketed_host hostname then Ok tt else Raise ValueError
  else
    let '(hostname, _, _) := partition ":" hostname_and_port in
    if check_bracketed_host hostname then Ok tt else Raise ValueError.

(** The first lines of [urlsplit]: leading control characters and spaces
    go, then tabs and line breaks anywhere. *)
Definition clean_url (url : string) : string :=
  remove unsafe_url_byte (lstrip c0_control_or_space url).

Definition clean_scheme (sch : string) : string :=
  remove unsafe_url_byte (strip c0_control_or_space sch).

(** The scheme of [url], lower-cased, and what follows its colon; the
    default [sch] and [url] itself when there is no scheme. *)
Definition split_scheme (url sch : string) : string * string :=
  match find ":" url, url with
  | Some (S i), String c0 _ =>
      if is_ascii_alpha c0 && str_forall scheme_char (str_take (S i) url)
      then (lower (str_take (S i) url), str_drop (S (S i)) url)
      else (sch, url)
  | _, _ => (sch, url)
  end.

(** The host part after a leading [//], with the bracket checks. *)
Definition split_netloc (url : string) : res (string * string) :=
  if String.eqb (str_take 2 url) "//" then
    let '(nl, rest) := splitnetloc2 url in
    if (has_char "[" nl && negb (has_char "]" nl))
       || (has_char "]" nl && negb (has_char "[" nl))
    then Raise ValueError
    else
      do _ <- (if has_char "[" nl && has_char "]" nl
               then check_bracketed_netloc nl else Ok tt);
      Ok (nl, rest)
  else Ok (EmptyString, url).

Definition urlsplit (url0 scheme0 : string) : res SplitResult :=
  let '(sch, url) := split_scheme (clean_url url0) (clean_scheme scheme0) in
  do nr <- split_netloc url;
  let '(nl, url) := nr in
  let '(url, frag) :=
    if has_char "#" url then let '(a, _, b) := partition "#" url in (a, b)
    else (url, EmptyString) in
  let '(url, qry) :=
    if has_char "?" url then let '(a, _, b) := partition "?" url in (a, b)
    else (url, EmptyString) in
  Ok (mkSplit sch nl url qry frag).

Definition splitparams (url : string) : string * string :=
  if has_char "/" url then
    match rfind "/" url with
    | Some r =>
        match find_from ";" r url with
        | Some i => (str_take i url, str_drop (S i) url)
        | None => (url, EmptyString)
        end
    | None => (url, EmptyString)
    end
  else
    match find ";" url with
    | Some i => (str_take i url, str_drop (S i) url)
    | None => (url, EmptyString)
    end.

Definition urlparse (url scheme0 : string) : res ParseResult :=
  do r <- urlsplit url scheme0;
  let '(url, prm) :=
    if mem (s_scheme r) uses_params && has_char ";" (s_path r)
    then splitparams (s_path r)
    else (s_path r, EmptyString) in
  Ok (mkParse (s_scheme r) (s_netloc r) url prm (s_query r) (s_fragment r)).

End parse.

Definition urlunsplit (sch nl url qry frag : string) : string :=
  let url :=
    if negb (String.eqb nl EmptyString)
       || (negb (String.eqb sch EmptyString) && mem sch uses_netloc
           && negb (String.eqb (str_take 2 url) "//"))
    then
      let url := if negb (String.eqb url EmptyString) && negb (String.eqb (str_take 1 url) "/")
                 then "/" +:+ url else url in
      "//" +:+ nl +:+ url
    else url in
  let url := if negb (String.eqb sch EmptyString) then sch +:+ ":" +:+ url else url in
  let url := if negb (String.eqb qry EmptyString) then url +:+ "?" +:+ qry else url in
  let url := if negb (String.eqb frag EmptyString) then url +:+ "#" +:+ frag else url in
  url.

Definition urlunparse (sch nl url prm qry frag : string) : string :=
  let url := if negb (String.eqb prm EmptyString) then url +:+ ";" +:+ prm else url in
  urlunsplit sch nl url qry frag.

(** The loop of [urljoin] that resolves [.] and [..] segments;
    [resolved_path] is kept reversed. *)
Fixpoint resolve (segments : list string) (resolved_rev : list string) : list string :=
  match segments with
  | [] => rev resolved_rev
  | seg :: rest =>
      if String.eqb seg ".." then resolve rest (tail resolved_rev)
      else if String.eqb seg "." then resolve rest resolved_rev
      else resolve rest (seg :: resolved_rev)
  end.

(** [segments[1:-1] = filter(None, segments[1:-1])]. *)
Definition filter_middle (segments : list string) : list string :=
  match segments with
  | [] => []
  | first :: rest =>
      match rev rest with
      | [] => [first]
      | lst :: mid_rev =>
          first :: filter (λ s, negb (String.eqb s EmptyString)) (rev mid_rev) ++ [lst]
      end
  end.

Section join.
Variable check_bracketed_host : string → bool.

Definition urljoin (base url : string) : res string :=
  if String.eqb base EmptyString then Ok url
  else if String.eqb url EmptyString then Ok base
  else
    do b <- urlparse check_bracketed_host base EmptyString;
    do u <- urlparse check_bracketed_host url (scheme b);
    if negb (String.eqb (scheme u) (scheme b)) || negb (mem (scheme u) uses_relative)
    then Ok url
    else if mem (scheme u) uses_netloc && negb (String.eqb (netloc u) EmptyString)
    then Ok (urlunparse (scheme u) (netloc u) (path u) (params u) (query u) (fragment u))
    else
      let nl := if mem (scheme u) uses_netloc then netloc b else netloc u in
      if String.eqb (path u) EmptyString && String.eqb (params u) EmptyString then
        let qry := if String.eqb (query u) EmptyString then query b else query u in
        Ok (urlunparse (scheme u) nl (path b) (params b) qry (fragment u))
      else
        let base_parts := split "/" (path b) in
        let base_parts :=
          if negb (String.eqb (List.last base_parts EmptyString) EmptyString)
          then removelast base_parts else base_parts in
        let segments :=
          if String.eqb (str_take 1 (path u)) "/" then split "/" (path u)
          else filter_middle (base_parts ++ split "/" (path u)) in
        let resolved_path := resolve segments [] in
        let resolved_path :=
          if mem (List.last segments EmptyString) ["."; ".."]
          then resolved_path ++ [EmptyString] else resolved_path in
        let joined := join "/" resolved_path in
        let joined := if String.eqb joined EmptyString then "/" else joined in
        Ok (urlunparse (scheme u) nl joined (params u) (query u) (fragment u)).

End join.

End Urllib.

(** ** The Selenium session, as the crawler sees it

    The browser, the site and the file system lie outside the program.  A
    [world] fixes how they answer: which page the session is on after a
    navigation, what the elements of a page report, and which calls fail. *)
Module Selenium.
Import Py.

Inductive locator : Type :=
  | ByTagName (name : string)
  | ByCssSelector (selector : string).

Record element : Type := mkElement {
  (** [element.get_attribute(name)] *)
  get_attribute : string → res (option string);
  is_displayed : res bool;
  is_enabled : res bool;
  (** [driver.execute_script("arguments[0].scrollIntoView(true);", element)] *)
  scroll_into_view : res unit;
  (** [element.click()]: the page the session is on afterwards, if it
      navigates *)
  click : res (option nat)
}.

Record page : Type := mkPage {
  (** [driver.current_url] *)
  current_url : res string;
  (** [WebDriverWait(driver, timeout).until(readyState == 'complete')] *)
  wait_ready : res unit;
  (** [driver.find_elements(by, value)] *)
  find_elements : locator → res (list element)
}.

Record world : Type := mkWorld {
  pages : nat → page;
  (** [driver.get(url)] issued on page [p]: its outcome and the page the
      session is on afterwards *)
  get : string → nat → res unit * nat;
  (** [driver.quit()] *)
  quit : res unit;
  (** opening and writing [index.html] in the session directory *)
  write_report : res unit
}.

End Selenium.

(** ** The crawler: [class ImageCrawler] *)
Module Crawler.
Import Py Urllib Selenium.

(** The attributes read from the environment by [__init__]. *)
Record config : Type := mkConfig {
  base_url : option string;
  pager_selector : string;
  max_pages : Z;
  timeout : Z;
  user_agent : option string
}.

(** What [generate_html_report] writes: the template is fixed, the document
    is determined by the image count and the numbered, sorted image URLs. *)
Record document : Type := mkDocument {
  doc_count : nat;
  doc_items : list (nat * string)
}.

(** The mutable part of a run.  The last two fields are bookkeeping of the
    model only: the arguments of [driver.get] and of [extract_images], most
    recent first.  No function reads them. *)
Record state : Type := mkState {
  driver : nat;
  visited_urls : gset string;
  image_urls : gset string;
  report_file : option document;
  quit_calls : nat;
  requested : list string;
  harvested : list string
}.

Definition set_driver (p : nat) (st : state) : state :=
  mkState p (visited_urls st) (image_urls st) (report_file st) (quit_calls st)
          (requested st) (harvested st).
Definition set_visited_urls (v : gset string) (st : state) : state :=
  mkState (driver st) v (image_urls st) (report_file st) (quit_calls st)
          (requested st) (harvested st).
Definition set_image_urls (i : gset string) (st : state) : state :=
  mkState (driver st) (visited_urls st) i (report_file st) (quit_calls st)
          (requested st) (harvested st).
Definition set_report_file (d : option document) (st : state) : state :=
  mkState (driver st) (visited_urls st) (image_urls st) d (quit_calls st)
          (requested st) (harvested st).
Definition set_quit_calls (n : nat) (st : state) : state :=
  mkState (driver st) (visited_urls st) (image_urls st) (report_file st) n
          (requested st) (harvested st).
Definition log_request (u : string) (st : state) : state :=
  mkState (driver st) (visited_urls st) (image_urls st) (report_file st)
          (quit_calls st) (u :: requested st) (harvested st).
Definition log_harvest (u : string) (st : state) : state :=
  mkState (driver st) (visited_urls st) (image_urls st) (report_file st)
          (quit_calls st) (requested st) (u :: harvested st).

(** Statements that read or change the state and may raise. *)
Definition M (A : Type) : Type := state → res A * state.

Definition retM {A : Type} (a : A) : M A := λ st, (Ok a, st).
Definition bindM {A B : Type} (m : M A) (k : A → M B) : M B :=
  λ st, match m st with
        | (Ok a, st') => k a st'
        | (Raise e, st') => (Raise e, st')
        end.
Definition liftM {A : Type} (r : res A) : M A := λ st, (r, st).
Definition get_state : M state := λ st, (Ok st, st).
Definition modify (f : state → state) : M unit := λ st, (Ok tt, f st).

(** [try: m except Exception: h]; what [m] changed before raising stays. *)
Definition try_exceptM {A : Type} (m : M A) (h : exn → M A) : M A :=
  λ st, match m st with
        | (Ok a, st') => (Ok a, st')
        | (Raise e, st') => if is_Exception e then h e st' else (Raise e, st')
        end.

Notation "'exec' x <- m ; k" := (bindM m (fun x => k))
  (at level 10, x name, m at level 100, k at level 200, only parsing).

(** A [for] loop whose body may raise, threading the value it builds. *)
Fixpoint for_each {A S : Type} (body : A → S → res S) (l : list A) (s : S) : res S :=
  match l with
  | [] => Ok s
  | x :: rest => do s' <- body x s; for_each body rest s'
  end.

Definition http_prefixed (url : string) : bool :=
  startswith "http://" url || startswith "https://" url.

Definition opt_eqb (a b : option string) : bool :=
  match a, b with
  | Some x, Some y => String.eqb x y
  | None, None => true
  | _, _ => false
  end.

Section crawler.
Variable check_bracketed_host : string → bool.
Variable W : world.
Variable self : config.

(** [urljoin(self.base_url, url)]; [urljoin] returns [url] for a base that
    is [None] just as for an empty one. *)
Definition urljoin_base (url : string) : res string :=
  match base_url self with
  | None => Ok url
  | Some b => urljoin check_bracketed_host b url
  end.

(** [urlparse(url).netloc] *)
Definition netloc_of (url : string) : res string :=
  do r <- urlparse check_bracketed_host url EmptyString; Ok (netloc r).

(** [urlparse(self.base_url).netloc].  For [None] the library answers with
    the bytes object [b''], which equals no [str]; it is [None] here. *)
Definition base_domain : res (option string) :=
  match base_url self with
  | None => Ok None
  | Some b => do d <- netloc_of b; Ok (Some d)
  end.

Definition is_valid_url (url : option string) : res bool :=
  match url with
  | None => Ok false
  | Some u =>
      if String.eqb u EmptyString || startswith "javascript:" u || startswith "mailto:" u
      then Ok false
      else
        do u <- (if negb (http_prefixed u) then urljoin_base u else Ok u);
        do bd <- base_domain;
        do ud <- netloc_of u;
        Ok (opt_eqb (Some ud) bd)
  end.

Definition get_absolute_url (url : option string) : res string :=
  match url with
  | None => Raise AttributeError
  | Some u => if http_prefixed u then Ok u else urljoin_base u
  end.

(** *** Driver calls *)

Definition driver_get (url : string) : M unit :=
  λ st, let '(r, p) := get W url (driver st) in (r, set_driver p (log_request url st)).

Definition driver_wait_ready : M unit :=
  λ st, (wait_ready (pages W (driver st)), st).

Definition driver_find_elements (by_ : locator) : M (list element) :=
  λ st, (find_elements (pages W (driver st)) by_, st).

Definition driver_current_url : M string :=
  λ st, (current_url (pages W (driver st)), st).

Definition element_click (e : element) : M unit :=
  λ st, match click e with
        | Ok (Some p) => (Ok tt, set_driver p st)
        | Ok None => (Ok tt, st)
        | Raise x => (Raise x, st)
        end.

(** [WebDriverWait(driver, timeout).until(lambda d: d.current_url != current)] *)
Definition wait_url_change (current : string) : M unit :=
  exec u <- driver_current_url;
  if negb (String.eqb u current) then retM tt else liftM (Raise TimeoutException).

(** *** [extract_links] and [extract_images] *)

(** The body of the per-element [try] shared by both: keep the resolved URL
    of a non-empty, valid attribute value. *)
Definition keep_valid (value : option string) (acc : gset string) : res (gset string) :=
  if truthy value then
    do ok <- is_valid_url value;
    if ok then do a <- get_absolute_url value; Ok ({[a]} ∪ acc) else Ok acc
  else Ok acc.

Definition link_step (e : element) (links : gset string) : res (gset string) :=
  try_except
    (do href <- get_attribute e "href"; keep_valid href links)
    (λ _, Ok links).

Definition extract_links (url : string) : M (gset string) :=
  try_exceptM
    (exec _ <- driver_get url;
     exec _ <- driver_wait_ready;
     exec elements <- driver_find_elements (ByTagName "a");
     liftM (for_each link_step elements ∅))
    (λ _, retM ∅).

(** [img.get_attribute('src') or img.get_attribute('data-src')] *)
Definition image_source (img : element) : res (option string) :=
  do src <- get_attribute img "src";
  if truthy src then Ok src else get_attribute img "data-src".

Definition image_step (img : element) (images : gset string) : res (gset string) :=
  try_except
    (do src <- image_source img; keep_valid src images)
    (λ _, Ok images).

Definition extract_images (url : string) : M (gset string) :=
  exec _ <- modify (log_harvest url);
  try_exceptM
    (exec _ <- driver_get url;
     exec _ <- driver_wait_ready;
     exec img_elements <- driver_find_elements (ByTagName "img");
     liftM (for_each image_step img_elements ∅))
    (λ _, retM ∅).

(** *** Pagination: [has_next_page] and [go_to_next_page] *)

Definition next_selector : string :=
  pager_selector self +:+ ", a[rel='next'], .pagination-next, .next, .page-next".

Definition heuristic_selector : string :=
  "a[href*='page'], a[href*='p='], a[href*='/2']".

(** [button.is_displayed() and button.is_enabled()] *)
Definition displayed_and_enabled (button : element) : res bool :=
  do d <- is_displayed button;
  if d then is_enabled button else Ok false.

(** One round of the loop of [has_next_page].  The debug message slices
    [button.get_attribute('outerHTML')], which is evaluated before the button
    is reported; slicing [None] raises [TypeError]. *)
Definition button_is_next (button : element) : res bool :=
  try_except
    (do ok <- displayed_and_enabled button;
     if ok then
       do html <- get_attribute button "outerHTML";
       match html with
       | Some _ => Ok true
       | None => Raise TypeError
       end
     else Ok false)
    (λ _, Ok false).

Fixpoint any_next_button (buttons : list element) : res bool :=
  match buttons with
  | [] => Ok false
  | button :: rest =>
      do found <- button_is_next button;
      if found then Ok true else any_next_button rest
  end.

Definition has_next_page : M bool :=
  try_exceptM
    (exec next_buttons <- driver_find_elements (ByCssSelector next_selector);
     liftM (any_next_button next_buttons))
    (λ _, retM false).

(** The body of the first loop of [go_to_next_page]: [Some u] when the
    function returns [u] from inside the loop, [None] when the loop goes on. *)
Definition try_button (current : string) (button : element) : M (option string) :=
  try_exceptM
    (exec ok <- liftM (displayed_and_enabled button);
     if ok then
       exec next_url <- liftM (get_attribute button "href");
       if truthy next_url && negb (opt_eqb next_url (Some current)) then
         exec _ <- liftM (scroll_into_view button);
         exec _ <- element_click button;
         exec _ <- driver_wait_ready;
         exec _ <- wait_url_change current;
         exec u <- driver_current_url;
         retM (Some u)
       else retM None
     else retM None)
    (λ _, retM None).

Fixpoint click_loop (current : string) (buttons : list element) : M (option string) :=
  match buttons with
  | [] => retM None
  | button :: rest =>
      exec r <- try_button current button;
      match r with
      | Some u => retM (Some u)
      | None => click_loop current rest
      end
  end.

(** The test of the second loop on a string [href],
    [href and href != current_url and 'page' in href.lower() or 'p=' in href.lower()]:
    [and] binds tighter than [or]. *)
Definition follow_test (current href : string) : bool :=
  (negb (String.eqb href EmptyString) && negb (String.eqb href current)
   && contains "page" (lower href))
  || contains "p=" (lower href).

(** The body of the second loop.  When [href] is [None] the left operand
    of [or] is false and the right one calls [None.lower()]. *)
Definition try_link (current : string) (link : element) : M (option string) :=
  try_exceptM
    (exec href <- liftM (get_attribute link "href");
     match href with
     | None => liftM (Raise AttributeError)
     | Some h =>
         if follow_test current h then
           exec _ <- driver_get h;
           exec _ <- driver_wait_ready;
           exec u <- driver_current_url;
           retM (Some u)
         else retM None
     end)
    (λ _, retM None).

Fixpoint link_loop (current : string) (links : list element) : M (option string) :=
  match links with
  | [] => retM None
  | link :: rest =>
      exec r <- try_link current link;
      match r with
      | Some u => retM (Some u)
      | None => link_loop current rest
      end
  end.

Definition go_to_next_page : M (option string) :=
  exec current <- driver_current_url;
  try_exceptM
    (exec next_buttons <- driver_find_elements (ByCssSelector next_selector);
     exec r <- click_loop current next_buttons;
     match r with
     | Some u => retM (Some u)
     | None =>
         exec next_links <- driver_find_elements (ByCssSelector heuristic_selector);
         link_loop current next_links
     end)
    (λ _, retM None).

(** *** [generate_html_report] and [cleanup] *)

Definition str_le (a b : string) : Prop := Is_true (String.leb a b).

(** [enumerate(sorted(self.image_urls), 1)] *)
Fixpoint enumerate (idx : nat) (l : list string) : list (nat * string) :=
  match l with
  | [] => []
  | x :: rest => (idx, x) :: enumerate (S idx) rest
  end.

Definition render (images : gset string) : document :=
  mkDocument (size images) (enumerate 1 (merge_sort str_le (elements images))).

Definition generate_html_report : M unit :=
  exec st <- get_state;
  if decide (image_urls st = ∅) then retM tt
  else
    exec _ <- liftM (write_report W);
    modify (set_report_file (Some (render (image_urls st)))).

Definition cleanup : M unit :=
  try_exceptM
    (exec st <- get_state;
     exec _ <- modify (set_quit_calls (S (quit_calls st)));
     liftM (quit W))
    (λ _, retM tt).

(** *** [crawl] *)

(** Where a value of [current_url] came from (bookkeeping of the model). *)
Inductive origin : Type := FromSeed | FromPager | FromLinks.

Record cursor : Type := mkCursor {
  cur_url : string;
  page_count : Z;
  assigned : list (origin * string)
}.

Inductive step : Type :=
  | Continue (c : cursor)
  | Break.

(** [current_url and (self.max_pages == 0 or page_count < self.max_pages)] *)
Definition loop_test (c : cursor) : bool :=
  negb (String.eqb (cur_url c) EmptyString)
  && ((max_pages self =? 0) || (page_count c <? max_pages self)).

Definition advance (o : origin) (u : string) (c : cursor) : cursor :=
  mkCursor u (page_count c + 1) ((o, u) :: assigned c).

(** One round of the [while] loop.  [unvisited_links] is a list built by
    iterating a Python set, whose order is that of the hash table;
    [elements] stands for that order, and nothing proved below depends on
    which unvisited link comes first. *)
Definition loop_body (c : cursor) : M step :=
  exec st <- get_state;
  if decide (cur_url c ∈ visited_urls st) then retM Break
  else
    exec _ <- modify (set_visited_urls ({[cur_url c]} ∪ visited_urls st));
    exec images <- extract_images (cur_url c);
    exec _ <- (if decide (images = ∅) then retM tt
               else exec st <- get_state;
                    modify (set_image_urls (image_urls st ∪ images)));
    exec has_next <- has_next_page;
    exec next_url <- (if has_next then go_to_next_page else retM None);
    if truthy next_url && negb (opt_eqb next_url (Some (cur_url c))) then
      match next_url with
      | Some u => retM (Continue (advance FromPager u c))
      | None => retM Break
      end
    else
      exec links <- extract_links (cur_url c);
      exec st <- get_state;
      let unvisited_links :=
        filter (λ link, link ∉ visited_urls st) (elements links) in
      match unvisited_links with
      | link :: _ => retM (Continue (advance FromLinks link c))
      | [] => retM Break
      end.

(** The [while] loop; [fuel] bounds the number of rounds and [None] means
    the bound was reached with the loop still running. *)
Fixpoint crawl_loop (fuel : nat) (c : cursor) (st : state) : option (res unit * state) :=
  if loop_test c then
    match fuel with
    | O => None
    | S fuel' =>
        match loop_body c st with
        | (Ok (Continue c'), st') => crawl_loop fuel' c' st'
        | (Ok Break, st') => Some (Ok tt, st')
        | (Raise e, st') => Some (Raise e, st')
        end
    end
  else Some (Ok tt, st).

(** The [try] block of [crawl] with its two handlers, both of which log and
    go on, followed by the [finally] clause. *)
Definition crawl_from (fuel : nat) (seed : string) (st : state) : option (res unit * state) :=
  match crawl_loop fuel (mkCursor seed 0 [(FromSeed, seed)]) st with
  | None => None
  | Some (r, st1) =>
      let '(_, st2) :=
        match r with
        | Ok _ => generate_html_report st1
        | Raise e => (Raise e, st1)
        end in
      Some (cleanup st2)
  end.

Definition crawl (fuel : nat) (st : state) : option (res unit * state) :=
  match base_url self with
  | Some seed =>
      if String.eqb seed EmptyString then Some (Ok tt, st)
      else crawl_from fuel seed st
  | None => Some (Ok tt, st)
  end.

End crawler.

(** *** [__init__], [setup_driver] and [main] *)

(** What the process finds at start-up: the environment after
    [load_dotenv()], the file system and the Chrome installation. *)
Record host : Type := mkHost {
  environ : string → option string;
  (** [Path.mkdir(exist_ok=True)] *)
  mkdir : string → res unit;
  (** [datetime.now().strftime('%Y%m%d_%H%M%S')] *)
  now : string;
  (** creating the [FileHandler] for [crawler.log] *)
  open_log : res unit;
  (** [ChromeDriverManager(...).install()] *)
  install_driver : res string;
  (** [webdriver.Chrome(service=..., options=...)] followed by
      [set_page_load_timeout]; the argument is the driver path, if one was
      installed; the answer is the page the new session is on *)
  start_chrome : option string → res nat;
  (** [webdriver.Chrome(options=options)] followed by [set_page_load_timeout] *)
  start_default_chrome : res nat
}.

(** Calls that reach outside the process during start-up, oldest first
    (bookkeeping of the model). *)
Inductive effect : Type :=
  | Mkdir (path : string)
  | OpenLog
  | InstallDriver
  | StartChrome
  | StartDefaultChrome.

(** The characters [int] skips around a number: the ASCII white space and
    the two Latin-1 spaces 0x85 and 0xA0. *)
Definition int_space (c : ascii) : bool :=
  between 9 13 c || (code c =? 32)%N || (code c =? 133)%N || (code c =? 160)%N.

(** The digits of a decimal literal, single underscores allowed between
    them: the value, the number of digits and what follows. *)
Fixpoint scan_digits (s : string) (after_underscore : bool) (acc : Z) (digits : nat)
  : option (Z * nat * string) :=
  match s with
  | EmptyString => if after_underscore then None else Some (acc, digits, EmptyString)
  | String c t =>
      if is_digit c then
        scan_digits t false (10 * acc + (Z.of_N (code c) - 48)) (S digits)
      else if Ascii.eqb c "_" then
        if after_underscore then None else scan_digits t true acc digits
      else if after_underscore then None else Some (acc, digits, s)
  end.

(** [sys.get_int_max_str_digits()], at its default. *)
Definition int_max_str_digits : nat := 4300.

(** [int(s)] for a [str] argument. *)
Definition py_int (s : string) : res Z :=
  let s := lstrip int_space s in
  let '(negative, s) :=
    match s with
    | String c t =>
        if Ascii.eqb c "+" then (false, t)
        else if Ascii.eqb c "-" then (true, t)
        else (false, s)
    | EmptyString => (false, s)
    end in
  if startswith "_" s then Raise ValueError
  else
    match scan_digits s false 0 0 with
    | Some (v, digits, rest) =>
        if (digits =? 0)%nat || (int_max_str_digits <? digits)%nat
           || negb (str_forall int_space rest)
        then Raise ValueError
        else Ok (if negative then - v else v)
    | None => Raise ValueError
    end.

(** [int(os.getenv(name, default))] with an [int] default. *)
Definition getenv_int (h : host) (name : string) (default : Z) : res Z :=
  match environ h name with
  | Some s => py_int s
  | None => Ok default
  end.

(** Start-up code: what it computes or raises, and the calls it made. *)
Definition I (A : Type) : Type := list effect → res A * list effect.
Definition retI {A : Type} (a : A) : I A := λ l, (Ok a, l).
Definition bindI {A B : Type} (m : I A) (k : A → I B) : I B :=
  λ l, match m l with
       | (Ok a, l') => k a l'
       | (Raise e, l') => (Raise e, l')
       end.
Definition call {A : Type} (e : effect) (r : res A) : I A := λ l, (r, l ++ [e]).
Definition pureI {A : Type} (r : res A) : I A := λ l, (r, l).
Definition try_exceptI {A : Type} (m : I A) (handler : exn → I A) : I A :=
  λ l, match m l with
       | (Ok a, l') => (Ok a, l')
       | (Raise e, l') => if is_Exception e then handler e l' else (Raise e, l')
       end.

Notation "'init' x <- m ; k" := (bindI m (fun x => k))
  (at level 10, x name, m at level 100, k at level 200, only parsing).

(** [setup_driver]: it returns [True] or raises, so the page of the new
    session stands for its result. *)
Definition setup_driver (h : host) : I nat :=
  try_exceptI
    (init service <- try_exceptI
                       (init driver_path <- call InstallDriver (install_driver h);
                        retI (Some driver_path))
                       (λ _, retI None);
     call StartChrome (start_chrome h service))
    (λ _, try_exceptI
            (call StartDefaultChrome (start_default_chrome h))
            (λ _, pureI (Raise PlainException))).

Definition init_state (p : nat) : state :=
  mkState p ∅ ∅ None 0 [] [].

(** [ImageCrawler.__init__] *)
Definition __init__ (h : host) : I (config * state) :=
  let base := environ h "START_URL" in
  let selector := default ".next-page" (environ h "PAGER_SELECTOR") in
  init pages_cap <- pureI (getenv_int h "MAX_PAGES" 10);
  init load_timeout <- pureI (getenv_int h "PAGE_LOAD_TIMEOUT" 30);
  let agent := environ h "USER_AGENT" in
  init _ <- call (Mkdir "RESULT") (mkdir h "RESULT");
  let session_dir := "RESULT/" +:+ now h in
  init _ <- call (Mkdir session_dir) (mkdir h session_dir);
  init _ <- call OpenLog (open_log h);
  init p <- setup_driver h;
  retI (mkConfig base selector pages_cap load_timeout agent, init_state p).

(** The outcome of [main]: the start-up calls, and either the exception
    that ended the process before [crawl] or the result of [crawl]. *)
Inductive run : Type :=
  | InitFailed (e : exn) (calls : list effect)
  | Crawled (calls : list effect) (self : config) (r : res unit) (final : state)
  | OutOfFuel (calls : list effect).

Definition main (check_bracketed_host : string → bool) (W : world) (h : host)
    (fuel : nat) : run :=
  match __init__ h [] with
  | (Raise e, calls) => InitFailed e calls
  | (Ok (self, st), calls) =>
      match crawl check_bracketed_host W self fuel st with
      | Some (r, final) => Crawled calls self r final
      | None => OutOfFuel calls
      end
  end.

End Crawler.

(** ** Notions used to state the properties *)
Module Notions.
Import Py Urllib Selenium Crawler.

(** [s] is not something [int] accepts. *)
Definition not_an_integer (s : string) : Prop := ∀ z, py_int s ≠ Ok z.

(** [get_absolute_url] applied to its own result. *)
Definition get_absolute_url_twice (chk : string → bool) (self : config)
    (u : string) : res string :=
  do a <- get_absolute_url chk self (Some u);
  get_absolute_url chk self (Some a).

(** The seed, when configured, starts with [http://] or [https://]. *)
Definition http_seed (self : config) : Prop :=
  ∀ b, base_url self = Some b → http_prefixed b = true.

(** The values [is_valid_url] turns down at its first test, before it looks
    at any host. *)
Definition turned_down (u : string) : bool :=
  String.eqb u EmptyString || startswith "javascript:" u || startswith "mailto:" u.

(** *** The harvest, element by element *)

(** The attribute value the harvester works with: the primary source when
    it is there and not empty, else the lazy-load source; [None] also when
    reading an attribute fails. *)
Definition chosen_source (img : element) : option string :=
  match get_attribute img "src" with
  | Ok src =>
      if truthy src then src
      else match get_attribute img "data-src" with
           | Ok lazy => lazy
           | Raise _ => None
           end
  | Raise _ => None
  end.

(** What one element contributes: its resolved URL when the source passes
    the scope check, nothing otherwise. *)
Definition harvest_one (chk : string → bool) (self : config) (img : element)
    : gset string :=
  match chosen_source img with
  | Some s =>
      if String.eqb s EmptyString then ∅
      else match is_valid_url chk self (Some s), get_absolute_url chk self (Some s) with
           | Ok true, Ok a => {[a]}
           | _, _ => ∅
           end
  | None => ∅
  end.

(** The harvest of a page: the union of what its elements contribute. *)
Definition harvest (chk : string → bool) (self : config) (imgs : list element)
    : gset string :=
  ⋃ (harvest_one chk self <$> imgs).

(** No attribute read of the element is cut short by Ctrl-C. *)
Definition uninterrupted (e : element) : Prop :=
  ∀ name, get_attribute e name ≠ Raise KeyboardInterrupt.

(** *** The traversal as a transition system *)

(** Driver calls leave everything but the session and the request log as it
    was. *)
Definition keeps (st st' : state) : Prop :=
  visited_urls st' = visited_urls st
  ∧ image_urls st' = image_urls st
  ∧ harvested st' = harvested st
  ∧ report_file st' = report_file st
  ∧ quit_calls st' = quit_calls st.

Definition frames {A : Type} (m : M A) : Prop :=
  ∀ st r st', m st = (r, st') → keeps st st'.

Section traversal.
Variable chk : string → bool.
Variable W : world.
Variable self : config.

(** The cursor [crawl] starts the loop with. *)
Definition start (seed : string) : cursor := mkCursor seed 0 [(FromSeed, seed)].

(** The cursor and state at the head of the [while] loop, after any number
    of completed rounds. *)
Inductive reachable (seed : string) (st0 : state) : cursor → state → Prop :=
  | reach_start : reachable seed st0 (start seed) st0
  | reach_round (c : cursor) (st : state) (c' : cursor) (st' : state) :
      reachable seed st0 c st →
      loop_test self c = true →
      loop_body chk W self c st = (Ok (Continue c'), st') →
      reachable seed st0 c' st'.

(** Every state a run goes through: at the head of the loop, or at the end
    of a round however the round ends. *)
Inductive passes (seed : string) (st0 : state) : state → Prop :=
  | pass_head (c : cursor) (st : state) :
      reachable seed st0 c st → passes seed st0 st
  | pass_round (c : cursor) (st : state) (r : res step) (st' : state) :
      reachable seed st0 c st →
      loop_test self c = true →
      loop_body chk W self c st = (r, st') →
      passes seed st0 st'.

(** The host of [u] is the host of the seed. *)
Definition in_scope (u : string) : Prop :=
  ∃ d, netloc_of chk u = Ok d ∧ base_domain chk self = Ok (Some d).

(** [u] has a scheme and a host. *)
Definition is_absolute (u : string) : Prop :=
  ∃ r, urlparse chk u EmptyString = Ok r
       ∧ scheme r ≠ EmptyString ∧ netloc r ≠ EmptyString.

(** [u] is what [extract_links] keeps for some [href]. *)
Definition resolved_link (u : string) : Prop :=
  ∃ href, href ≠ EmptyString
          ∧ is_valid_url chk self (Some href) = Ok true
          ∧ get_absolute_url chk self (Some href) = Ok u.

(** *** How the loop ends *)




End traversal.

End Notions.

(** ** Concrete sites and configurations *)
Module Sample.
Import Py Urllib Selenium Crawler.

Definition any_host : string → bool := λ _, true.

Definition seed : string := "http://example.com/".

Definition settings : config := mkConfig (Some seed) ".next-page" 10 30 None.

(** A configuration whose seed was written without a scheme. *)
Definition bare : config := mkConfig (Some "example.com/a/") ".next-page" 10 30 None.

Definition blank : page := mkPage (Ok "data:,") (Ok tt) (λ _, Ok []).

(** A site on which every request fails. *)
Definition offline : world :=
  mkWorld (λ _, blank) (λ _ p, (Raise WebDriverException, p)) (Ok tt) (Ok tt).

(** A machine with a working Chrome and the given environment. *)
Definition machine (env : string → option string) : host :=
  mkHost env (λ _, Ok tt) "20240101_000000" (Ok tt) (Ok "chromedriver")
         (λ _, Ok 0%nat) (Ok 0%nat).

Definition env_bad_max_pages : string → option string :=
  λ name, if String.eqb name "MAX_PAGES" then Some "ten"
          else if String.eqb name "START_URL" then Some seed
          else None.

Definition one_image : state :=
  mkState 0 ∅ {["http://example.com/a.png"]} None 0 [] [].

Definition with_attributes (attrs : string → res (option string)) : element :=
  mkElement attrs (Ok true) (Ok true) (Ok tt) (Ok None).

Definition img_primary : element :=
  with_attributes (λ name, if String.eqb name "src"
                           then Ok (Some "http://example.com/a.png") else Ok None).
Definition img_stale : element :=
  with_attributes (λ _, Raise WebDriverException).
Definition img_lazy : element :=
  with_attributes (λ name, if String.eqb name "data-src"
                           then Ok (Some "/img/b.png") else Ok None).
Definition img_foreign : element :=
  with_attributes (λ name, if String.eqb name "src"
                           then Ok (Some "http://cdn.test/c.png") else Ok None).

Definition gallery_images : list element :=
  [img_primary; img_stale; img_lazy; img_foreign].

(** A one-page site: the seed shows the four images above. *)
Definition gallery : world :=
  mkWorld
    (λ p, match p with
          | 1%nat => mkPage (Ok seed) (Ok tt)
                       (λ l, match l with
                             | ByTagName "img" => Ok gallery_images
                             | _ => Ok []
                             end)
          | _ => blank
          end)
    (λ u p, if String.eqb u seed then (Ok tt, 1%nat) else (Raise WebDriverException, p))
    (Ok tt) (Ok tt).

(** The attributes of an anchor or button: [href] and [outerHTML]. *)
Definition link_attributes (href : option string) : string → res (option string) :=
  λ name, if String.eqb name "href" then Ok href
          else if String.eqb name "outerHTML" then Ok (Some "<a>")
          else Ok None.

(** A visible, enabled control that leads to page [target] when clicked. *)
Definition control (href : option string) (target : option nat) : element :=
  mkElement (link_attributes href) (Ok true) (Ok true) (Ok tt) (Ok target).

Definition elsewhere : string := "http://other.test/2".

(** The seed page has a next link that points to another host. *)
Definition offsite : world :=
  mkWorld
    (λ p, match p with
          | 1%nat => mkPage (Ok seed) (Ok tt)
                       (λ l, match l with
                             | ByCssSelector sel =>
                                 if String.prefix ".next-page" sel
                                 then Ok [control (Some elsewhere) (Some 2%nat)]
                                 else Ok []
                             | ByTagName _ => Ok []
                             end)
          | 2%nat => mkPage (Ok elsewhere) (Ok tt) (λ _, Ok [])
          | _ => blank
          end)
    (λ u p, if String.eqb u seed then (Ok tt, 1%nat)
            else if String.eqb u elsewhere then (Ok tt, 2%nat)
            else (Raise WebDriverException, p))
    (Ok tt) (Ok tt).

Definition listing_url : string := "http://example.com/list?p=1".

Definition listing : config := mkConfig (Some listing_url) ".next-page" 10 30 None.

(** A listing whose next control is a script button without [href], and
    whose pager shows the current page as a link to itself. *)
Definition self_linked : world :=
  mkWorld
    (λ p, match p with
          | 1%nat => mkPage (Ok listing_url) (Ok tt)
                       (λ l, match l with
                             | ByCssSelector sel =>
                                 if String.prefix ".next-page" sel
                                 then Ok [control None None]
                                 else Ok [control (Some listing_url) (Some 1%nat)]
                             | ByTagName _ => Ok []
                             end)
          | _ => blank
          end)
    (λ u p, if String.eqb u listing_url then (Ok tt, 1%nat)
            else (Raise WebDriverException, p))
    (Ok tt) (Ok tt).

Fixpoint letters (n : nat) : string :=
  match n with
  | O => EmptyString
  | S n' => String "a" (letters n')
  end.

(** Page [j] of a chain: [http://example.com/] followed by [j] letters. *)
Definition chain_url (j : nat) : string := seed +:+ letters j.

(** A site of [len] pages in a row, each with a next link to the
    following one, the last without. *)
Definition chain (len : nat) : world :=
  mkWorld
    (λ j, mkPage (Ok (chain_url j)) (Ok tt)
            (λ l, match l with
                  | ByCssSelector sel =>
                      if String.prefix ".next-page" sel && (S j <? len)%nat
                      then Ok [control (Some (chain_url (S j))) (Some (S j))]
                      else Ok []
                  | ByTagName _ => Ok []
                  end))
    (λ u _, (Ok tt, (String.length u - String.length seed)%nat))
    (Ok tt) (Ok tt).

Definition uncapped : config := mkConfig (Some seed) ".next-page" 0 30 None.

Definition env_no_seed : string → option string := λ _, None.

(** How many pages a finished run visited. *)
Definition pages_visited (out : option (res unit * state)) : option nat :=
  match out with
  | Some (_, st) => Some (size (visited_urls st))
  | None => None
  end.

End Sample.

(** ** Notions for the further properties *)
Module Behaviour.
Import Py Urllib Selenium Crawler Notions.

(** What one attribute value adds to the set that [extract_links] or
    [extract_images] builds: its resolved URL when it is not empty and
    passes [is_valid_url], nothing otherwise. *)
Definition contribution (chk : string → bool) (self : config)
    (value : option string) : gset string :=
  match value with
  | Some s =>
      if String.eqb s EmptyString then ∅
      else match is_valid_url chk self (Some s), get_absolute_url chk self (Some s) with
           | Ok true, Ok a => {[a]}
           | _, _ => ∅
           end
  | None => ∅
  end.

(** The [href] of an anchor, [None] also when it cannot be read. *)
Definition anchor_target (a : element) : option string :=
  match get_attribute a "href" with
  | Ok href => href
  | Raise _ => None
  end.

(** The links of a page: the union of what its anchors contribute. *)
Definition links_of (chk : string → bool) (self : config) (anchors : list element)
    : gset string :=
  ⋃ ((λ a, contribution chk self (anchor_target a)) <$> anchors).

(** A control that [has_next_page] accepts: visible, enabled and with
    markup to show in the debug log. *)
Definition next_ready (button : element) : bool :=
  match is_displayed button, is_enabled button, get_attribute button "outerHTML" with
  | Ok true, Ok true, Ok (Some _) => true
  | _, _, _ => false
  end.

(** No call on the element is cut short by Ctrl-C. *)
Definition calm (e : element) : Prop :=
  uninterrupted e
  ∧ is_displayed e ≠ Raise KeyboardInterrupt
  ∧ is_enabled e ≠ Raise KeyboardInterrupt.

(** The statement [m] leaves the part [f] of the state as it was. *)
Definition preserves {A X : Type} (f : state → X) (m : M A) : Prop :=
  ∀ st r st', m st = (r, st') → f st' = f st.

(** The service [setup_driver] starts Chrome with: the installed driver,
    or the system one when the installation fails. *)
Definition chosen_service (h : host) : option string :=
  match install_driver h with
  | Ok path => Some path
  | Raise _ => None
  end.

(** The numbers of a numbered list, and its entries. *)
Definition numbers (items : list (nat * string)) : list nat := fst <$> items.
Definition entries (items : list (nat * string)) : list string := snd <$> items.

End Behaviour.

(** ** Further sites *)
Module Sample2.
Import Py Urllib Selenium Crawler Sample.

Definition anchor (href : string) : element := control (Some href) None.

Definition directory_anchors : list element :=
  [anchor "/page/2"; with_attributes (λ _, Raise WebDriverException);
   anchor "http://other.test/"; anchor "mailto:me@example.com"].

(** A one-page site whose seed page shows the four anchors above. *)
Definition directory : world :=
  mkWorld
    (λ p, match p with
          | 1%nat => mkPage (Ok seed) (Ok tt)
                       (λ l, match l with
                             | ByTagName "a" => Ok directory_anchors
                             | _ => Ok []
                             end)
          | _ => blank
          end)
    (λ u p, if String.eqb u seed then (Ok tt, 1%nat) else (Raise WebDriverException, p))
    (Ok tt) (Ok tt).


(** A machine on which the installed driver does not start, but the
    default Chrome does. *)
Definition machine_fallback : host :=
  mkHost env_no_seed (λ _, Ok tt) "20240101_000000" (Ok tt) (Ok "chromedriver")
         (λ _, Raise WebDriverException) (Ok 0%nat).

(** A machine on which the driver cannot be installed. *)
Definition machine_uninstalled : host :=
  mkHost env_no_seed (λ _, Ok tt) "20240101_000000" (Ok tt) (Raise OSError)
         (λ _, Ok 0%nat) (Ok 0%nat).


(** A machine on which the result directory cannot be created. *)
Definition machine_readonly : host :=
  mkHost env_no_seed (λ _, Raise OSError) "20240101_000000" (Ok tt)
         (Ok "chromedriver") (λ _, Ok 0%nat) (Ok 0%nat).

(** A session that is gone: reading the current URL fails. *)
Definition crashed : world :=
  mkWorld (λ _, mkPage (Raise WebDriverException) (Ok tt) (λ _, Ok []))
          (λ _ p, (Ok tt, p)) (Ok tt) (Ok tt).

Definition two_images : gset string :=
  {["http://example.com/b.png"; "http://example.com/a.png"]}.

Definition second : string := "http://example.com/b".

(** A site of two pages that lead to each other.  The seed page has no
    pager; its anchors point to itself and to the second page.  The second
    page has a next control that leads back to the seed. *)
Definition circuit : world :=
  mkWorld
    (λ p, match p with
          | 1%nat => mkPage (Ok seed) (Ok tt)
                       (λ l, match l with
                             | ByTagName "a" => Ok [anchor "/"; anchor "/b"]
                             | _ => Ok []
                             end)
          | 2%nat => mkPage (Ok second) (Ok tt)
                       (λ l, match l with
                             | ByCssSelector sel =>
                                 if String.prefix ".next-page" sel
                                 then Ok [control (Some seed) (Some 1%nat)]
                                 else Ok []
                             | ByTagName _ => Ok []
                             end)
          | _ => blank
          end)
    (λ u p, if String.eqb u seed then (Ok tt, 1%nat)
            else if String.eqb u second then (Ok tt, 2%nat)
            else (Raise WebDriverException, p))
    (Ok tt) (Ok tt).


(** The state of a crawler that has been at work before: one page visited
    and one image collected. *)
Definition resumed : state :=
  mkState 0 {["http://example.com/old"]} {["http://example.com/kept.png"]}
          None 0 [] [].

End Sample2.

(** * Properties *)

(** ** Strings and [urllib.parse] *)
Section string_facts.
Import Py Urllib Crawler.

Lemma append_nil (b : string) : EmptyString +:+ b = b.
Proof. reflexivity. Qed.

Lemma append_cons (x : ascii) (a b : string) : String x a +:+ b = String x (a +:+ b).
Proof. reflexivity. Qed.

Lemma prefix_split (p s : string) :
  String.prefix p s = true → ∃ r, s = p +:+ r.
Proof.
  revert s. induction p as [|a p IH]; intros s H.
  - exists s. reflexivity.
  - destruct s as [|b s]; simpl in H; [discriminate|].
    destruct (ascii_dec a b) as [->|]; [|discriminate].
    destruct (IH s H) as [r ->]. exists r. reflexivity.
Qed.

Lemma prefix_append (p r : string) : String.prefix p (p +:+ r) = true.
Proof.
  induction p as [|a p IH]; [by destruct r|].
  rewrite append_cons. simpl. destruct (ascii_dec a a); [exact IH|congruence].
Qed.

Lemma append_assoc (a b c : string) : (a +:+ b) +:+ c = a +:+ (b +:+ c).
Proof.
  induction a as [|x a IH]; [reflexivity|].
  rewrite !append_cons. by rewrite IH.
Qed.

Lemma prefix_append_r (p s t : string) :
  String.prefix p s = true → String.prefix p (s +:+ t) = true.
Proof.
  intros H. destruct (prefix_split _ _ H) as [r ->].
  rewrite append_assoc. apply prefix_append.
Qed.

Lemma eqb_empty_append (a b : string) :
  String.eqb a EmptyString = false → String.eqb (a +:+ b) EmptyString = false.
Proof. destruct a; [discriminate|reflexivity]. Qed.

Lemma http_prefixed_split (u : string) :
  http_prefixed u = true → ∃ r, u = "http://" +:+ r ∨ u = "https://" +:+ r.
Proof.
  unfold http_prefixed, startswith. intros H.
  apply orb_true_iff in H as [H|H]; apply prefix_split in H as [r ->]; eauto.
Qed.

Lemma split_scheme_http (rest d : string) :
  split_scheme ("http://" +:+ rest) d = ("http", "//" +:+ rest).
Proof. reflexivity. Qed.

Lemma split_scheme_https (rest d : string) :
  split_scheme ("https://" +:+ rest) d = ("https", "//" +:+ rest).
Proof. reflexivity. Qed.

Lemma clean_url_http (rest : string) :
  clean_url ("http://" +:+ rest) = "http://" +:+ remove unsafe_url_byte rest.
Proof. reflexivity. Qed.

Lemma clean_url_https (rest : string) :
  clean_url ("https://" +:+ rest) = "https://" +:+ remove unsafe_url_byte rest.
Proof. reflexivity. Qed.

Section urllib_parse_facts.
Variable chk : string → bool.

Lemma urlsplit_scheme (u d : string) (r : SplitResult) :
  urlsplit chk u d = Ok r →
  s_scheme r = (split_scheme (clean_url u) (clean_scheme d)).1.
Proof.
  unfold urlsplit.
  destruct (split_scheme (clean_url u) (clean_scheme d)) as [sch url]; cbn [fst].
  destruct (split_netloc chk url) as [[nl rest]|e]; cbn [bind]; [|discriminate].
  destruct (has_char "#" rest); [destruct (partition "#" rest) as [[a ?] b]|];
  match goal with |- context [has_char "?" ?x] =>
    destruct (has_char "?" x); [destruct (partition "?" x) as [[a' ?] b']|] end;
  intros [= <-]; reflexivity.
Qed.

Lemma urlparse_scheme (u d : string) (r : ParseResult) :
  urlparse chk u d = Ok r →
  scheme r = (split_scheme (clean_url u) (clean_scheme d)).1.
Proof.
  unfold urlparse. destruct (urlsplit chk u d) as [x|e] eqn:E; cbn [bind]; [|discriminate].
  apply urlsplit_scheme in E.
  destruct (mem (s_scheme x) uses_params && has_char ";" (s_path x));
    [destruct (splitparams (s_path x))|]; intros [= <-]; exact E.
Qed.

Lemma urlparse_http_scheme (b d : string) (r : ParseResult) :
  http_prefixed b = true → urlparse chk b d = Ok r →
  scheme r = "http" ∨ scheme r = "https".
Proof.
  intros Hb Hr. apply urlparse_scheme in Hr. rewrite Hr.
  destruct (http_prefixed_split _ Hb) as [rest [-> | ->]].
  - left. rewrite clean_url_http. reflexivity.
  - right. rewrite clean_url_https. reflexivity.
Qed.

End urllib_parse_facts.

Lemma take2_slashes (url : string) :
  String.eqb (str_take 2 url) "//" = true → ∃ r, url = "//" +:+ r.
Proof.
  intros H. apply String.eqb_eq in H.
  destruct url as [|a [|b r]]; cbn [str_take] in H; try discriminate.
  injection H as -> ->. exists r. reflexivity.
Qed.

(** What [urlunsplit] builds for a scheme that uses a host part starts
    with the scheme and [://]. *)
Lemma urlunsplit_prefix (sch nl url qry frag : string) :
  String.eqb sch EmptyString = false → mem sch uses_netloc = true →
  String.prefix (sch +:+ "://") (urlunsplit sch nl url qry frag) = true.
Proof.
  intros Hs Hm. unfold urlunsplit. rewrite Hs, Hm. cbn [negb andb].
  assert (∀ s t b, String.prefix (sch +:+ "://") s = true →
            String.prefix (sch +:+ "://") (if b : bool then s +:+ t else s) = true) as K.
  { intros s t [] H; [by apply prefix_append_r|done]. }
  apply K, K.
  assert (∀ body, String.prefix (sch +:+ "://") (sch +:+ ":" +:+ "//" +:+ body) = true) as P.
  { intros body. replace (sch +:+ ":" +:+ "//" +:+ body) with ((sch +:+ "://") +:+ body).
    - apply prefix_append.
    - rewrite append_assoc. reflexivity. }
  destruct (negb (String.eqb nl EmptyString)); cbn [orb].
  - apply P.
  - destruct (String.eqb (str_take 2 url) "//") eqn:E; cbn [negb].
    + destruct (take2_slashes _ E) as [r ->]. apply P.
    + apply P.
Qed.

Lemma urlunparse_http (sch nl url prm qry frag : string) :
  sch = "http" ∨ sch = "https" →
  http_prefixed (urlunparse sch nl url prm qry frag) = true.
Proof.
  intros H. unfold http_prefixed, startswith, urlunparse. apply orb_true_iff.
  destruct H as [-> | ->]; [left|right].
  - by apply (urlunsplit_prefix "http").
  - by apply (urlunsplit_prefix "https").
Qed.

Section urllib_join_facts.
Variable chk : string → bool.

(** With an http(s) base, [urljoin] hands back [url] itself, the base, or
    a string that starts with [http://] or [https://]. *)
Lemma urljoin_http (b u r : string) :
  http_prefixed b = true → urljoin chk b u = Ok r →
  r = u ∨ http_prefixed r = true.
Proof.
  intros Hb. unfold urljoin.
  destruct (String.eqb b EmptyString); [intros [= <-]; by left|].
  destruct (String.eqb u EmptyString); [intros [= <-]; by right|].
  destruct (urlparse chk b EmptyString) as [pb|] eqn:Eb; cbn [bind]; [|discriminate].
  destruct (urlparse chk u (scheme pb)) as [pu|] eqn:Eu; cbn [bind]; [|discriminate].
  pose proof (urlparse_http_scheme chk _ _ _ Hb Eb) as Hsb.
  destruct (negb (String.eqb (scheme pu) (scheme pb))) eqn:Es; cbn [orb].
  { intros [= <-]; by left. }
  apply negb_false_iff, String.eqb_eq in Es.
  assert (scheme pu = "http" ∨ scheme pu = "https") as Hsu by (by rewrite Es).
  destruct (negb (mem (scheme pu) uses_relative)); [intros [= <-]; by left|].
  destruct (mem (scheme pu) uses_netloc && negb (String.eqb (netloc pu) EmptyString)).
  { intros [= <-]. right. by apply urlunparse_http. }
  destruct (String.eqb (path pu) EmptyString && String.eqb (params pu) EmptyString).
  { intros [= <-]. right. by apply urlunparse_http. }
  intros [= <-]. right. by apply urlunparse_http.
Qed.

Lemma check_bracketed_netloc_raises (nl : string) (e : exn) :
  check_bracketed_netloc chk nl = Raise e → e = ValueError.
Proof.
  unfold check_bracketed_netloc.
  destruct (partition "[" (after_last "@" nl)) as [[before have] bracketed].
  destruct have.
  - destruct (negb (String.eqb before EmptyString)); [congruence|].
    destruct (partition "]" bracketed) as [[hostname ?] port].
    destruct (negb (String.eqb port EmptyString) && negb (startswith ":" port)); [congruence|].
    destruct (chk hostname); congruence.
  - destruct (partition ":" (after_last "@" nl)) as [[hostname ?] ?].
    destruct (chk hostname); congruence.
Qed.

Lemma split_netloc_raises (url : string) (e : exn) :
  split_netloc chk url = Raise e → e = ValueError.
Proof.
  unfold split_netloc.
  destruct (String.eqb (str_take 2 url) "//"); [|discriminate].
  destruct (splitnetloc2 url) as [nl rest].
  destruct (has_char "[" nl && negb (has_char "]" nl) || has_char "]" nl && negb (has_char "[" nl));
    [congruence|].
  destruct (has_char "[" nl && has_char "]" nl); [|discriminate].
  destruct (check_bracketed_netloc chk nl) eqn:E; cbn [bind]; [discriminate|].
  intros [= <-]. by eapply check_bracketed_netloc_raises.
Qed.

Lemma urlsplit_raises (u d : string) (e : exn) :
  urlsplit chk u d = Raise e → e = ValueError.
Proof.
  unfold urlsplit.
  destruct (split_scheme (clean_url u) (clean_scheme d)) as [sch url].
  destruct (split_netloc chk url) as [[nl rest]|e'] eqn:E; cbn [bind].
  - destruct (has_char "#" rest); [destruct (partition "#" rest) as [[a ?] b]|];
    match goal with |- context [has_char "?" ?x] =>
      destruct (has_char "?" x); [destruct (partition "?" x) as [[a' ?] b']|] end;
    discriminate.
  - intros [= <-]. by eapply split_netloc_raises.
Qed.

Lemma urlparse_raises (u d : string) (e : exn) :
  urlparse chk u d = Raise e → e = ValueError.
Proof.
  unfold urlparse. destruct (urlsplit chk u d) as [x|e'] eqn:E; cbn [bind].
  - destruct (mem (s_scheme x) uses_params && has_char ";" (s_path x));
      [destruct (splitparams (s_path x))|]; discriminate.
  - intros [= <-]. by eapply urlsplit_raises.
Qed.

Lemma urljoin_raises (b u : string) (e : exn) :
  urljoin chk b u = Raise e → e = ValueError.
Proof.
  unfold urljoin.
  destruct (String.eqb b EmptyString); [discriminate|].
  destruct (String.eqb u EmptyString); [discriminate|].
  destruct (urlparse chk b EmptyString) as [pb|] eqn:Eb; cbn [bind];
    [|intros [= <-]; by eapply urlparse_raises].
  destruct (urlparse chk u (scheme pb)) as [pu|] eqn:Eu; cbn [bind];
    [|intros [= <-]; by eapply urlparse_raises].
  repeat match goal with |- context [if ?c then _ else _] => destruct c end; discriminate.
Qed.

End urllib_join_facts.

End string_facts.

(** ** The URL classifier: [is_valid_url] and [get_absolute_url] *)
Section classifier_facts.
Import Py Urllib Crawler Notions.
Variable chk : string → bool.
Variable self : config.

Lemma urljoin_base_raises (u : string) (e : exn) :
  urljoin_base chk self u = Raise e → e = ValueError.
Proof.
  unfold urljoin_base. destruct (base_url self); [|discriminate].
  apply urljoin_raises.
Qed.

Lemma netloc_of_raises (u : string) (e : exn) :
  netloc_of chk u = Raise e → e = ValueError.
Proof.
  unfold netloc_of. destruct (urlparse chk u EmptyString) eqn:E; cbn [bind];
    [discriminate|].
  intros [= <-]. by eapply urlparse_raises.
Qed.

Lemma base_domain_raises (e : exn) :
  base_domain chk self = Raise e → e = ValueError.
Proof.
  unfold base_domain. destruct (base_url self); [|discriminate].
  destruct (netloc_of chk s) eqn:E; cbn [bind]; [discriminate|].
  intros [= <-]. by eapply netloc_of_raises.
Qed.

Lemma is_valid_url_raises (url : option string) (e : exn) :
  is_valid_url chk self url = Raise e → e = ValueError.
Proof.
  unfold is_valid_url. destruct url as [u|]; [|discriminate].
  destruct (_ || _ || _); [discriminate|].
  destruct (if negb (http_prefixed u) then urljoin_base chk self u else Ok u)
    as [u'|e'] eqn:E; cbn [bind].
  - destruct (base_domain chk self) eqn:Eb; cbn [bind];
      [|intros [= <-]; by eapply base_domain_raises].
    destruct (netloc_of chk u') eqn:En; cbn [bind];
      [discriminate|intros [= <-]; by eapply netloc_of_raises].
  - intros [= <-]. destruct (negb (http_prefixed u)); [|discriminate].
    by eapply urljoin_base_raises.
Qed.

Lemma get_absolute_url_http (u : string) :
  http_prefixed u = true → get_absolute_url chk self (Some u) = Ok u.
Proof. intros H. unfold get_absolute_url. by rewrite H. Qed.

Lemma get_absolute_url_raises (u : string) (e : exn) :
  get_absolute_url chk self (Some u) = Raise e → e = ValueError.
Proof.
  unfold get_absolute_url. destruct (http_prefixed u); [discriminate|].
  apply urljoin_base_raises.
Qed.

Lemma netloc_of_open_bracket : netloc_of chk "http://[" = Raise ValueError.
Proof. reflexivity. Qed.

Lemma is_valid_url_open_bracket :
  is_valid_url chk self (Some "http://[") = Raise ValueError.
Proof.
  unfold is_valid_url. cbn [String.eqb orb]. change (http_prefixed "http://[") with true.
  change (startswith "javascript:" "http://[") with false.
  change (startswith "mailto:" "http://[") with false.
  cbn [orb negb bind].
  destruct (base_domain chk self) eqn:E; cbn [bind].
  - by rewrite netloc_of_open_bracket.
  - f_equal. by eapply base_domain_raises.
Qed.

Lemma is_valid_url_turned_down (u : string) :
  startswith "javascript:" u = true ∨ startswith "mailto:" u = true →
  is_valid_url chk self (Some u) = Ok false.
Proof.
  intros [H|H]; unfold is_valid_url; rewrite H;
    by destruct (String.eqb u EmptyString); cbn [orb]; rewrite ?orb_true_r.
Qed.

(** Past its first test, [is_valid_url] resolves the value the way
    [get_absolute_url] does and compares the host of the result with the
    host of the seed. *)
Lemma is_valid_url_compares (u : string) :
  turned_down u = false →
  is_valid_url chk self (Some u) =
    bind (get_absolute_url chk self (Some u)) (λ a,
      bind (base_domain chk self) (λ bd,
        bind (netloc_of chk a) (λ d, Ok (opt_eqb (Some d) bd)))).
Proof.
  unfold turned_down, is_valid_url, get_absolute_url. intros ->.
  by destruct (http_prefixed u).
Qed.

Lemma is_valid_url_true (u : string) :
  turned_down u = false →
  is_valid_url chk self (Some u) = Ok true ↔
  ∃ a, get_absolute_url chk self (Some u) = Ok a ∧ in_scope chk self a.
Proof.
  intros H. rewrite (is_valid_url_compares _ H). unfold in_scope. split.
  - destruct (get_absolute_url chk self (Some u)) as [a|]; cbn [bind]; [|discriminate].
    destruct (base_domain chk self) as [[b|]|] eqn:Eb; cbn [bind]; [| |discriminate].
    + destruct (netloc_of chk a) as [d|] eqn:Ed; cbn [bind opt_eqb]; [|discriminate].
      intros [= Heq]. apply String.eqb_eq in Heq as ->.
      exists a. split; [done|]. by exists b.
    + destruct (netloc_of chk a) as [d|]; cbn [bind opt_eqb]; discriminate.
  - intros (a & -> & d & Hd & Hb). cbn [bind]. rewrite Hb. cbn [bind]. rewrite Hd.
    cbn [bind opt_eqb]. by rewrite String.eqb_refl.
Qed.

Lemma is_valid_url_false (u : string) :
  turned_down u = false →
  is_valid_url chk self (Some u) = Ok false ↔
  ∃ a d bd, get_absolute_url chk self (Some u) = Ok a ∧ netloc_of chk a = Ok d
            ∧ base_domain chk self = Ok bd ∧ bd ≠ Some d.
Proof.
  intros H. rewrite (is_valid_url_compares _ H). split.
  - destruct (get_absolute_url chk self (Some u)) as [a|]; cbn [bind]; [|discriminate].
    destruct (base_domain chk self) as [bd|] eqn:Eb; cbn [bind]; [|discriminate].
    destruct (netloc_of chk a) as [d|] eqn:Ed; cbn [bind]; [|discriminate].
    intros [= Heq]. exists a, d, bd. repeat split; try done.
    intros ->. cbn in Heq. by rewrite String.eqb_refl in Heq.
  - intros (a & d & bd & -> & Hd & Hb & Hne). cbn [bind]. rewrite Hb. cbn [bind].
    rewrite Hd. cbn [bind]. f_equal.
    destruct bd as [b|]; cbn [opt_eqb]; [|done].
    apply String.eqb_neq. congruence.
Qed.

Lemma get_absolute_url_joins (u : string) :
  http_prefixed u = false →
  get_absolute_url chk self (Some u) =
    match base_url self with
    | Some seed => urljoin chk seed u
    | None => Ok u
    end.
Proof. intros H. unfold get_absolute_url, urljoin_base. by rewrite H. Qed.

(** C5, as the code has it.  With a seed that starts with [http://] or
    [https://] (or no seed at all), resolving a URL a second time changes
    nothing, exceptions included; and a URL that starts with [http://] or
    [https://] is returned as it is. *)
Theorem get_absolute_url_idempotent :
  http_seed self →
  ∀ u, get_absolute_url_twice chk self u = get_absolute_url chk self (Some u)
       ∧ (http_prefixed u = true → get_absolute_url chk self (Some u) = Ok u).
Proof.
  intros Hseed u. split; [|apply get_absolute_url_http].
  unfold get_absolute_url_twice.
  destruct (http_prefixed u) eqn:Hu.
  { rewrite (get_absolute_url_http _ Hu). cbn [bind]. by apply get_absolute_url_http. }
  destruct (get_absolute_url chk self (Some u)) as [a|e] eqn:Ea; cbn [bind]; [|done].
  assert (a = u ∨ http_prefixed a = true) as [-> | Ha].
  { unfold get_absolute_url in Ea. rewrite Hu in Ea. unfold urljoin_base in Ea.
    destruct (base_url self) as [b|] eqn:Eb.
    - eapply urljoin_http; [by apply Hseed|done].
    - left. congruence. }
  - done.
  - by apply get_absolute_url_http.
Qed.

End classifier_facts.

Lemma get_absolute_url_idempotent_witness :
  Notions.get_absolute_url_twice Sample.any_host Sample.settings "gallery/2?x=1"
  = Py.Ok "http://example.com/gallery/2?x=1".
Proof.
  destruct (get_absolute_url_idempotent Sample.any_host Sample.settings) with
    (u := "gallery/2?x=1") as [H _].
  - intros b [= <-]. reflexivity.
  - rewrite H. reflexivity.
Defined.

(** C5 as worded fails.  With a seed written without a scheme the second
    resolution prepends the seed's directory once more; and an absolute URL
    whose scheme is in capitals comes back with the scheme in lower case. *)
Lemma get_absolute_url_not_idempotent :
  Crawler.get_absolute_url Sample.any_host Sample.bare (Some "b")
  = Py.Ok "example.com/a/b"
  ∧ Notions.get_absolute_url_twice Sample.any_host Sample.bare "b"
    = Py.Ok "example.com/a/example.com/a/b"
  ∧ Crawler.get_absolute_url Sample.any_host Sample.settings
      (Some "HTTP://example.com/x")
    = Py.Ok "http://example.com/x".
Proof. repeat split; vm_compute; reflexivity. Qed.

(** C3 as worded fails: [get_absolute_url(None)] raises. *)
Lemma get_absolute_url_None_raises :
  Crawler.get_absolute_url Sample.any_host Sample.settings None
  = Py.Raise Py.AttributeError.
Proof. reflexivity. Qed.

(** ** Start-up: [__init__] and [main] *)
Section startup_facts.
Import Py Urllib Selenium Crawler Notions.

Lemma py_int_raises (s : string) (e : exn) : py_int s = Raise e → e = ValueError.
Proof.
  unfold py_int.
  destruct (match lstrip int_space s with
            | EmptyString => _ | String c t => _ end) as [negative s'].
  destruct (startswith "_" s'); [congruence|].
  destruct (scan_digits s' false 0 0) as [[[v digits] rest]|]; [|congruence].
  destruct (_ || _ || _); congruence.
Qed.

Lemma not_an_integer_raises (s : string) :
  not_an_integer s → py_int s = Raise ValueError.
Proof.
  intros H. destruct (py_int s) as [z|e] eqn:E.
  - by destruct (H z).
  - f_equal. by eapply py_int_raises.
Qed.

Lemma getenv_int_raises (h : host) (name : string) (d : Z) (e : exn) :
  getenv_int h name d = Raise e → e = ValueError.
Proof.
  unfold getenv_int. destruct (environ h name); [apply py_int_raises|discriminate].
Qed.

(** C10.  When [MAX_PAGES] or [PAGE_LOAD_TIMEOUT] is set to a string that
    [int] rejects, [__init__] raises [ValueError] having made no call outside
    the process (no directory, no log file, no browser), and [main] ends
    there: [crawl] is never entered and no default is substituted. *)
Theorem init_rejects_invalid_integer (h : host) (name s : string) :
  name = "MAX_PAGES" ∨ name = "PAGE_LOAD_TIMEOUT" →
  environ h name = Some s →
  not_an_integer s →
  __init__ h [] = (Raise ValueError, [])
  ∧ ∀ chk W fuel, main chk W h fuel = InitFailed ValueError [].
Proof.
  intros Hname Henv Hbad.
  assert (__init__ h [] = (Raise ValueError, [])) as Hinit.
  { apply not_an_integer_raises in Hbad.
    unfold __init__, bindI, pureI.
    destruct Hname as [-> | ->].
    - unfold getenv_int at 1. by rewrite Henv, Hbad.
    - destruct (getenv_int h "MAX_PAGES" 10) as [z|e] eqn:E.
      + unfold getenv_int. by rewrite Henv, Hbad.
      + by rewrite (getenv_int_raises _ _ _ _ E). }
  split; [done|]. intros chk W fuel. unfold main. by rewrite Hinit.
Qed.

End startup_facts.

Lemma init_rejects_invalid_integer_witness :
  Crawler.main Sample.any_host Sample.offline
    (Sample.machine Sample.env_bad_max_pages) 3
  = Crawler.InitFailed Py.ValueError [].
Proof.
  apply (init_rejects_invalid_integer
           (Sample.machine Sample.env_bad_max_pages) "MAX_PAGES" "ten").
  - left. reflexivity.
  - reflexivity.
  - intros z. vm_compute. discriminate.
Defined.

(** ** The report *)
Section report_facts.
Import Py Urllib Selenium Crawler Notions.
Variable W : world.

Lemma generate_html_report_empty (st : state) :
  image_urls st = ∅ → generate_html_report W st = (Ok tt, st).
Proof.
  intros H. unfold generate_html_report, bindM, get_state. cbn.
  by destruct (decide (image_urls st = ∅)).
Qed.

Lemma generate_html_report_nonempty (st : state) :
  image_urls st ≠ ∅ →
  generate_html_report W st =
    match write_report W with
    | Ok _ => (Ok tt, set_report_file (Some (render (image_urls st))) st)
    | Raise e => (Raise e, st)
    end.
Proof.
  intros H. unfold generate_html_report, bindM, get_state, liftM, modify. cbn.
  destruct (decide (image_urls st = ∅)); [done|].
  by destruct (write_report W) as [[]|].
Qed.

(** C9.  With no image collected, [generate_html_report] returns at once
    and leaves everything as it was: nothing is written.  In a session
    directory that has no report yet and can be written to, the report file
    exists afterwards exactly when the image set is non-empty, and it then
    holds the rendering of that set. *)
Theorem report_written_iff_images (st : state) :
  (image_urls st = ∅ → generate_html_report W st = (Ok tt, st))
  ∧ (report_file st = None → write_report W = Ok tt →
     (is_Some (report_file (generate_html_report W st).2) ↔ image_urls st ≠ ∅)
     ∧ (image_urls st ≠ ∅ →
        report_file (generate_html_report W st).2 = Some (render (image_urls st)))).
Proof.
  split; [apply generate_html_report_empty|].
  intros Hnone Hw.
  destruct (decide (image_urls st = ∅)) as [He|Hne].
  - rewrite (generate_html_report_empty _ He). cbn [snd]. rewrite Hnone.
    split; [|done]. split; [intros [? [=]]|done].
  - rewrite (generate_html_report_nonempty _ Hne), Hw. cbn.
    split; [|done]. split; [done|eauto].
Qed.

End report_facts.

Lemma report_written_iff_images_witness :
  is_Some (Crawler.report_file
             (Crawler.generate_html_report Sample.offline Sample.one_image).2).
Proof.
  destruct (report_written_iff_images Sample.offline Sample.one_image) as [_ H].
  destruct H as [H _]; [reflexivity|reflexivity|].
  apply H. vm_compute. discriminate.
Defined.

(** ** The image harvester *)
Section harvest_facts.
Import Py Urllib Selenium Crawler Notions.
Variable chk : string → bool.
Variable W : world.
Variable self : config.

Lemma uninterrupted_is_Exception (e : element) (name : string) (x : exn) :
  uninterrupted e → get_attribute e name = Raise x → is_Exception x = true.
Proof.
  intros H E. destruct x; try reflexivity. by destruct (H name).
Qed.

Lemma keep_valid_spec (s : string) (acc : gset string) :
  keep_valid chk self (Some s) acc =
    if String.eqb s EmptyString then Ok acc
    else do ok <- is_valid_url chk self (Some s);
         if ok then do a <- get_absolute_url chk self (Some s); Ok ({[a]} ∪ acc)
         else Ok acc.
Proof. unfold keep_valid, truthy. by destruct (String.eqb s EmptyString). Qed.

(** One round of the loop of [extract_images] adds the element's
    contribution, whatever goes wrong inside the [try]. *)
Lemma image_step_harvest (img : element) (acc : gset string) :
  uninterrupted img →
  image_step chk self img acc = Ok (harvest_one chk self img ∪ acc).
Proof.
  intros Hu. unfold image_step, image_source, harvest_one, chosen_source.
  destruct (get_attribute img "src") as [src|x] eqn:Es; cbn [bind].
  2:{ cbn [try_except]. rewrite (uninterrupted_is_Exception _ _ _ Hu Es).
      f_equal. set_solver. }
  assert (∀ v : option string,
    try_except (keep_valid chk self v acc) (λ _, Ok acc) =
    Ok (match v with
        | Some s =>
            if String.eqb s EmptyString then ∅
            else match is_valid_url chk self (Some s), get_absolute_url chk self (Some s) with
                 | Ok true, Ok a => {[a]}
                 | _, _ => ∅
                 end
        | None => ∅
        end ∪ acc)) as K.
  { intros [s|]; [|cbn; f_equal; set_solver].
    rewrite keep_valid_spec. destruct (String.eqb s EmptyString).
    { cbn. f_equal. set_solver. }
    destruct (is_valid_url chk self (Some s)) as [[]|x] eqn:Ev; cbn [bind try_except].
    - destruct (get_absolute_url chk self (Some s)) as [a|x] eqn:Ea; cbn [bind]; [done|].
      destruct s; [discriminate|].
      rewrite (get_absolute_url_raises _ _ _ _ Ea). cbn. f_equal. set_solver.
    - f_equal. set_solver.
    - rewrite (is_valid_url_raises _ _ _ _ Ev). cbn. f_equal. set_solver. }
  destruct (truthy src) eqn:Et; [apply K|].
  destruct (get_attribute img "data-src") as [lazy|x] eqn:Ed.
  - apply K.
  - cbn [bind try_except]. rewrite (uninterrupted_is_Exception _ _ _ Hu Ed).
    f_equal. set_solver.
Qed.

Lemma for_each_image_step (imgs : list element) (acc : gset string) :
  Forall uninterrupted imgs →
  for_each (image_step chk self) imgs acc = Ok (harvest chk self imgs ∪ acc).
Proof.
  intros H. revert acc. induction H as [|img imgs Hi _ IH]; intros acc.
  - cbn. f_equal. unfold harvest. set_solver.
  - cbn [for_each]. rewrite (image_step_harvest _ _ Hi). cbn [bind].
    rewrite IH. f_equal. unfold harvest. rewrite fmap_cons, union_list_cons.
    set_solver.
Qed.

Lemma elem_of_harvest (imgs : list element) (u : string) :
  u ∈ harvest chk self imgs ↔
  ∃ img s, img ∈ imgs ∧ chosen_source img = Some s ∧ s ≠ EmptyString
           ∧ is_valid_url chk self (Some s) = Ok true
           ∧ get_absolute_url chk self (Some s) = Ok u.
Proof.
  unfold harvest. rewrite elem_of_union_list. split.
  - intros (X & HX & Hu). apply list_elem_of_fmap in HX as (img & -> & Himg).
    unfold harvest_one in Hu.
    destruct (chosen_source img) as [s|] eqn:Es; [|set_solver].
    destruct (String.eqb s EmptyString) eqn:Ee; [set_solver|].
    destruct (is_valid_url chk self (Some s)) as [[]|] eqn:Ev; [|set_solver..].
    destruct (get_absolute_url chk self (Some s)) as [a|] eqn:Ea; [|set_solver].
    apply elem_of_singleton in Hu as ->.
    exists img, s. repeat split; try done. intros ->. discriminate.
  - intros (img & s & Himg & Es & Hne & Ev & Ea).
    exists (harvest_one chk self img). split.
    + apply list_elem_of_fmap. eauto.
    + unfold harvest_one. rewrite Es, Ev, Ea.
      destruct (String.eqb s EmptyString) eqn:Ee; [|set_solver].
      by apply String.eqb_eq in Ee.
Qed.

(** On a page that loads, [extract_images] returns the union of what the
    [img] elements contribute one by one. *)
Lemma extract_images_loaded (url : string) (st : state) (p : nat)
    (imgs : list element) :
  get W url (driver st) = (Ok tt, p) →
  wait_ready (pages W p) = Ok tt →
  find_elements (pages W p) (ByTagName "img") = Ok imgs →
  Forall uninterrupted imgs →
  (extract_images chk W self url st).1 = Ok (harvest chk self imgs).
Proof.
  intros Hget Hready Hfind Himgs.
  unfold extract_images, bindM, modify, try_exceptM, driver_get, driver_wait_ready,
    driver_find_elements, liftM.
  cbn [driver log_harvest set_driver log_request].
  rewrite Hget. cbn [driver set_driver]. rewrite Hready, Hfind.
  rewrite (for_each_image_step _ _ Himgs). cbn [fst]. f_equal. set_solver.
Qed.

End harvest_facts.

(** ** The classifier and its callers *)
Section classifier_in_use.
Import Py Urllib Selenium Crawler Notions Behaviour.
Variable chk : string → bool.
Variable self : config.

(** The shared body of the two loops, inside its [try]. *)
Lemma keep_valid_contribution (value : option string) (acc : gset string) :
  try_except (keep_valid chk self value acc) (λ _, Ok acc)
  = Ok (contribution chk self value ∪ acc).
Proof.
  destruct value as [s|]; [|cbn; f_equal; set_solver].
  rewrite keep_valid_spec. unfold contribution.
  destruct (String.eqb s EmptyString) eqn:Ee; [cbn; f_equal; set_solver|].
  destruct (is_valid_url chk self (Some s)) as [[]|x] eqn:Ev; cbn [bind try_except].
  - destruct (get_absolute_url chk self (Some s)) as [a|x] eqn:Ea; cbn [bind]; [done|].
    rewrite (get_absolute_url_raises _ _ _ _ Ea). cbn. f_equal. set_solver.
  - f_equal. set_solver.
  - rewrite (is_valid_url_raises _ _ _ _ Ev). cbn. f_equal. set_solver.
Qed.

Lemma link_step_contribution (a : element) (acc : gset string) :
  uninterrupted a →
  link_step chk self a acc = Ok (contribution chk self (anchor_target a) ∪ acc).
Proof.
  intros Hu. unfold link_step, anchor_target.
  destruct (get_attribute a "href") as [href|x] eqn:E; cbn [bind].
  - apply keep_valid_contribution.
  - cbn [try_except]. rewrite (uninterrupted_is_Exception _ _ _ Hu E).
    f_equal. cbn. set_solver.
Qed.

(** A value on which [is_valid_url] raises is skipped by the loop. *)
Lemma keep_valid_caught (s : string) (x : exn) (acc : gset string) :
  is_valid_url chk self (Some s) = Raise x →
  try_except (keep_valid chk self (Some s) acc) (λ _, Ok acc) = Ok acc.
Proof.
  intros Hv. rewrite keep_valid_spec.
  destruct (String.eqb s EmptyString); [done|].
  rewrite Hv. cbn [bind try_except]. by rewrite (is_valid_url_raises _ _ _ _ Hv).
Qed.

(** C3, as the code has it.  [is_valid_url] answers [False] without raising
    for [None], for the empty string and for [javascript:] and [mailto:]
    values.  On any other string it resolves the value as [get_absolute_url]
    does and answers whether the host of the result is the host of the seed;
    it can only fail with the [ValueError] of [urllib.parse], which it lets
    through, as for [http://[].  [get_absolute_url] is defined on strings
    only: [None] raises [AttributeError], a value that starts with [http://]
    or [https://] comes back unchanged, any other value is joined onto the
    seed with [urljoin], whose only failure is again a [ValueError].  The
    loops of [extract_links] and [extract_images] absorb these failures
    element by element: a round never raises and never loses what was
    collected, and an element on whose value [is_valid_url] raises is
    skipped. *)
Theorem classifier_failure_modes :
  is_valid_url chk self None = Ok false
  ∧ is_valid_url chk self (Some EmptyString) = Ok false
  ∧ (∀ u, startswith "javascript:" u = true ∨ startswith "mailto:" u = true →
          is_valid_url chk self (Some u) = Ok false)
  ∧ (∀ u e, is_valid_url chk self (Some u) = Raise e → e = ValueError)
  ∧ is_valid_url chk self (Some "http://[") = Raise ValueError
  ∧ get_absolute_url chk self None = Raise AttributeError
  ∧ (∀ u, http_prefixed u = true → get_absolute_url chk self (Some u) = Ok u)
  ∧ (∀ u e, get_absolute_url chk self (Some u) = Raise e → e = ValueError)
  ∧ (∀ u, turned_down u = false →
          (is_valid_url chk self (Some u) = Ok true ↔
           ∃ a, get_absolute_url chk self (Some u) = Ok a ∧ in_scope chk self a)
          ∧ (is_valid_url chk self (Some u) = Ok false ↔
             ∃ a d bd, get_absolute_url chk self (Some u) = Ok a
                       ∧ netloc_of chk a = Ok d
                       ∧ base_domain chk self = Ok bd ∧ bd ≠ Some d))
  ∧ (∀ u, http_prefixed u = false →
          get_absolute_url chk self (Some u) =
            match base_url self with
            | Some seed => urljoin chk seed u
            | None => Ok u
            end)
  ∧ (∀ e acc, uninterrupted e →
              (∃ out, link_step chk self e acc = Ok out ∧ acc ⊆ out)
              ∧ (∃ out, image_step chk self e acc = Ok out ∧ acc ⊆ out))
  ∧ (∀ e acc s x, is_valid_url chk self (Some s) = Raise x →
                  (get_attribute e "href" = Ok (Some s) →
                   link_step chk self e acc = Ok acc)
                  ∧ (get_attribute e "src" = Ok (Some s) →
                     image_step chk self e acc = Ok acc)).
Proof.
  split; [done|]. split; [done|].
  split; [apply is_valid_url_turned_down|].
  split; [intros u e; apply is_valid_url_raises|].
  split; [apply is_valid_url_open_bracket|].
  split; [done|].
  split; [apply get_absolute_url_http|].
  split; [intros u e; apply get_absolute_url_raises|].
  split.
  { intros u Hu. split; [by apply is_valid_url_true|by apply is_valid_url_false]. }
  split; [apply get_absolute_url_joins|].
  split.
  - intros e acc He. split.
    + rewrite (link_step_contribution _ _ He). eexists. split; [done|set_solver].
    + rewrite (image_step_harvest _ _ _ _ He). eexists. split; [done|set_solver].
  - intros e acc s x Hv. split; intros Ha.
    + unfold link_step. rewrite Ha. cbn [bind]. by eapply keep_valid_caught.
    + unfold image_step, image_source. rewrite Ha. cbn [bind].
      assert (truthy (Some s) = true) as ->.
      { unfold truthy. destruct s; [|done]. cbn in Hv. discriminate. }
      by eapply keep_valid_caught.
Qed.

End classifier_in_use.

Lemma classifier_failure_modes_witness :
  Crawler.is_valid_url Sample.any_host Sample.settings (Some "/img/b.png") = Py.Ok true
  ∧ Crawler.is_valid_url Sample.any_host Sample.settings (Some "http://cdn.test/c.png")
    = Py.Ok false
  ∧ Crawler.link_step Sample.any_host Sample.settings (Sample2.anchor "http://[") ∅
    = Py.Ok ∅.
Proof.
  destruct (classifier_failure_modes Sample.any_host Sample.settings)
    as (_ & _ & _ & _ & Hbracket & _ & _ & _ & Hcompare & _ & _ & Hcaught).
  split; [|split].
  - apply (Hcompare "/img/b.png"); [reflexivity|].
    exists "http://example.com/img/b.png". split; [vm_compute; reflexivity|].
    exists "example.com". split; vm_compute; reflexivity.
  - apply (Hcompare "http://cdn.test/c.png"); [reflexivity|].
    exists "http://cdn.test/c.png", "cdn.test", (Some "example.com").
    repeat split; try (vm_compute; reflexivity). discriminate.
  - destruct (Hcaught (Sample2.anchor "http://[") ∅ "http://[" Py.ValueError Hbracket)
      as [Hlink _].
    apply Hlink. reflexivity.
Defined.

(** ** Which parts of the state the crawler's methods touch *)
Section frame_facts.
Import Py Urllib Selenium Crawler Notions.
Variable chk : string → bool.
Variable W : world.
Variable self : config.

Lemma keeps_refl (st : state) : keeps st st.
Proof. by repeat split. Qed.

Lemma keeps_trans (a b c : state) : keeps a b → keeps b c → keeps a c.
Proof.
  intros (?&?&?&?&?) (?&?&?&?&?). repeat split; congruence.
Qed.

Lemma frames_ret {A : Type} (a : A) : frames (retM a).
Proof. intros st r st' [= _ <-]. apply keeps_refl. Qed.

Lemma frames_lift {A : Type} (x : res A) : frames (liftM x).
Proof. intros st r st' [= _ <-]. apply keeps_refl. Qed.

Lemma frames_bind {A B : Type} (m : M A) (k : A → M B) :
  frames m → (∀ a, frames (k a)) → frames (bindM m k).
Proof.
  intros Hm Hk st r st'. unfold bindM.
  destruct (m st) as [[a|e] st1] eqn:E.
  - intros H. eapply keeps_trans; [by eapply Hm|by eapply Hk].
  - intros [= _ <-]. by eapply Hm.
Qed.

Lemma frames_try {A : Type} (m : M A) (h : exn → M A) :
  frames m → (∀ e, frames (h e)) → frames (try_exceptM m h).
Proof.
  intros Hm Hh st r st'. unfold try_exceptM.
  destruct (m st) as [[a|e] st1] eqn:E.
  - intros [= _ <-]. by eapply Hm.
  - destruct (is_Exception e).
    + intros H. eapply keeps_trans; [by eapply Hm|by eapply Hh].
    + intros [= _ <-]. by eapply Hm.
Qed.

Lemma frames_driver_get (url : string) : frames (driver_get W url).
Proof.
  intros st r st'. unfold driver_get. destruct (get W url (driver st)).
  intros [= _ <-]. by repeat split.
Qed.

Lemma frames_driver_wait_ready : frames (driver_wait_ready W).
Proof. intros st r st' [= _ <-]. apply keeps_refl. Qed.

Lemma frames_driver_find_elements (l : locator) : frames (driver_find_elements W l).
Proof. intros st r st' [= _ <-]. apply keeps_refl. Qed.

Lemma frames_driver_current_url : frames (driver_current_url W).
Proof. intros st r st' [= _ <-]. apply keeps_refl. Qed.

Lemma frames_element_click (e : element) : frames (element_click e).
Proof.
  intros st r st'. unfold element_click.
  destruct (click e) as [[p|]|x]; intros [= _ <-]; by repeat split.
Qed.

Lemma frames_wait_url_change (current : string) : frames (wait_url_change W current).
Proof.
  apply frames_bind; [apply frames_driver_current_url|].
  intros u. destruct (negb _); [apply frames_ret|apply frames_lift].
Qed.

Local Ltac frame :=
  repeat first
    [ apply frames_ret | apply frames_lift | apply frames_driver_get
    | apply frames_driver_wait_ready | apply frames_driver_find_elements
    | apply frames_driver_current_url | apply frames_element_click
    | apply frames_wait_url_change
    | apply frames_bind; [|intros ?] | apply frames_try; [|intros ?]
    | match goal with |- frames (if ?c then _ else _) => destruct c end
    | match goal with |- frames (match ?c with _ => _ end) => destruct c end ].

Lemma frames_extract_links (url : string) : frames (extract_links chk W self url).
Proof. unfold extract_links. frame. Qed.

Lemma frames_has_next_page : frames (has_next_page W self).
Proof. unfold has_next_page. frame. Qed.

Lemma frames_try_button (current : string) (button : element) :
  frames (try_button W current button).
Proof. unfold try_button. frame. Qed.

Lemma frames_click_loop (current : string) (buttons : list element) :
  frames (click_loop W current buttons).
Proof.
  induction buttons as [|b rest IH]; cbn [click_loop]; [apply frames_ret|].
  apply frames_bind; [apply frames_try_button|].
  intros [u|]; [apply frames_ret|exact IH].
Qed.

Lemma frames_try_link (current : string) (link : element) :
  frames (try_link W current link).
Proof. unfold try_link. frame. Qed.

Lemma frames_link_loop (current : string) (links : list element) :
  frames (link_loop W current links).
Proof.
  induction links as [|l rest IH]; cbn [link_loop]; [apply frames_ret|].
  apply frames_bind; [apply frames_try_link|].
  intros [u|]; [apply frames_ret|exact IH].
Qed.

Lemma frames_go_to_next_page : frames (go_to_next_page W self).
Proof.
  unfold go_to_next_page.
  apply frames_bind; [apply frames_driver_current_url|]. intros current.
  apply frames_try; [|intros ?; apply frames_ret].
  apply frames_bind; [apply frames_driver_find_elements|]. intros buttons.
  apply frames_bind; [apply frames_click_loop|].
  intros [u|]; [apply frames_ret|].
  apply frames_bind; [apply frames_driver_find_elements|]. intros links.
  apply frames_link_loop.
Qed.

(** [extract_images] notes the page in the harvest log and is a driver call
    otherwise. *)
Lemma extract_images_effect (url : string) (st : state) (r : res (gset string))
    (st' : state) :
  extract_images chk W self url st = (r, st') →
  visited_urls st' = visited_urls st
  ∧ image_urls st' = image_urls st
  ∧ harvested st' = url :: harvested st
  ∧ report_file st' = report_file st
  ∧ quit_calls st' = quit_calls st.
Proof.
  unfold extract_images. unfold bindM at 1. cbn [modify].
  intros H.
  assert (frames (try_exceptM
            (exec _ <- driver_get W url;
             exec _ <- driver_wait_ready W;
             exec img_elements <- driver_find_elements W (ByTagName "img");
             liftM (for_each (image_step chk self) img_elements ∅))
            (λ _, retM ∅))) as F by frame.
  apply F in H as (?&?&?&?&?). cbn in *. by repeat split.
Qed.

End frame_facts.

(** ** One round of the loop of [crawl] *)
Section round_facts.
Import Py Urllib Selenium Crawler Notions.
Variable chk : string → bool.
Variable W : world.
Variable self : config.

Lemma bindM_inv {A B : Type} (m : M A) (k : A → M B) (st : state)
    (r : res B) (st' : state) :
  bindM m k st = (r, st') →
  (∃ a st1, m st = (Ok a, st1) ∧ k a st1 = (r, st'))
  ∨ (∃ e, m st = (Raise e, st') ∧ r = Raise e).
Proof.
  unfold bindM. destruct (m st) as [[a|e] st1].
  - intros H. left. eauto.
  - intros [= <- <-]. right. eauto.
Qed.

Lemma not_Exception (e : exn) : is_Exception e = false → e = KeyboardInterrupt.
Proof. by destruct e. Qed.

(** A [try] whose handler returns a value lets no [Exception] out. *)
Lemma try_exceptM_value {A : Type} (m : M A) (a : A) (st : state) (e : exn) :
  (try_exceptM m (λ _, retM a) st).1 = Raise e → e = KeyboardInterrupt.
Proof.
  unfold try_exceptM. destruct (m st) as [[x|x] st1]; [discriminate|].
  destruct (is_Exception x) eqn:Ex; [discriminate|].
  intros [= <-]. by apply not_Exception.
Qed.





Lemma keep_valid_resolved (v : option string) (acc out : gset string) :
  keep_valid chk self v acc = Ok out →
  (∀ u, u ∈ acc → resolved_link chk self u) →
  ∀ u, u ∈ out → resolved_link chk self u.
Proof.
  unfold keep_valid. destruct (truthy v) eqn:Et; [|by intros [= <-]].
  destruct v as [s|]; [|discriminate].
  destruct (is_valid_url chk self (Some s)) as [[]|] eqn:Ev; cbn [bind];
    [|by intros [= <-]|discriminate].
  destruct (get_absolute_url chk self (Some s)) as [a|] eqn:Ea; cbn [bind];
    [|discriminate].
  intros [= <-] Hacc u Hu. apply elem_of_union in Hu as [Hu|Hu]; [|by apply Hacc].
  apply elem_of_singleton in Hu as ->. exists s. repeat split; try done.
  intros ->. discriminate.
Qed.

Lemma link_step_resolved (e : element) (acc out : gset string) :
  link_step chk self e acc = Ok out →
  (∀ u, u ∈ acc → resolved_link chk self u) →
  ∀ u, u ∈ out → resolved_link chk self u.
Proof.
  unfold link_step, try_except.
  destruct (bind (get_attribute e "href") (λ href, keep_valid chk self href acc))
    as [x|x] eqn:E.
  - intros [= <-]. destruct (get_attribute e "href") as [href|]; [|discriminate].
    cbn [bind] in E. by eapply keep_valid_resolved.
  - destruct (is_Exception x); [by intros [= <-]|discriminate].
Qed.

Lemma for_each_link_step_resolved (elements : list element) (acc out : gset string) :
  for_each (link_step chk self) elements acc = Ok out →
  (∀ u, u ∈ acc → resolved_link chk self u) →
  ∀ u, u ∈ out → resolved_link chk self u.
Proof.
  revert acc. induction elements as [|e rest IH]; intros acc; cbn [for_each].
  - by intros [= <-].
  - destruct (link_step chk self e acc) as [acc'|] eqn:E; cbn [bind]; [|discriminate].
    intros H Hacc. eapply IH; [done|]. by eapply link_step_resolved.
Qed.

(** Every link [extract_links] returns passed the scope check. *)
Lemma extract_links_resolved (url : string) (st : state) (links : gset string)
    (st' : state) :
  extract_links chk W self url st = (Ok links, st') →
  ∀ u, u ∈ links → resolved_link chk self u.
Proof.
  unfold extract_links, try_exceptM.
  match goal with |- context [match ?m st with _ => _ end] =>
    destruct (m st) as [[out|x] st1] eqn:E end.
  - intros [= <- <-].
    apply bindM_inv in E as [(? & s1 & _ & E)|(? & _ & [=])].
    apply bindM_inv in E as [(? & s2 & _ & E)|(? & _ & [=])].
    apply bindM_inv in E as [(elements & s3 & _ & E)|(? & _ & [=])].
    injection E as E _. eapply for_each_link_step_resolved; [done|set_solver].
  - destruct (is_Exception x); [|discriminate].
    intros [= <- _]. set_solver.
Qed.

Lemma loop_body_visited (c : cursor) (st : state) :
  cur_url c ∈ visited_urls st → loop_body chk W self c st = (Ok Break, st).
Proof.
  intros H. unfold loop_body, bindM, get_state.
  by destruct (decide (cur_url c ∈ visited_urls st)).
Qed.

(** A round on a page not seen before: the page joins the visited set and
    the harvest log, once; the images only grow; and when the loop goes on,
    the new cursor is either what the pager produced, different from the
    current URL, or a scope-checked link that is not in the visited set. *)
Lemma loop_body_round (c : cursor) (st : state) (r : res step) (st' : state) :
  cur_url c ∉ visited_urls st →
  loop_body chk W self c st = (r, st') →
  visited_urls st' = {[cur_url c]} ∪ visited_urls st
  ∧ harvested st' = cur_url c :: harvested st
  ∧ image_urls st ⊆ image_urls st'
  ∧ report_file st' = report_file st
  ∧ quit_calls st' = quit_calls st
  ∧ ∀ c', r = Ok (Continue c') →
      ∃ o u, c' = advance o u c ∧ u ≠ cur_url c
             ∧ (o = FromPager
                ∨ (o = FromLinks ∧ (u ∉ visited_urls st') ∧ resolved_link chk self u)).
Proof.
  intros Hnew H. unfold loop_body in H.
  unfold bindM at 1, get_state in H.
  destruct (decide (cur_url c ∈ visited_urls st)); [done|].
  unfold bindM at 1 in H. cbn [modify] in H.
  set (st1 := set_visited_urls ({[cur_url c]} ∪ visited_urls st) st) in H.
  apply bindM_inv in H as [(images & st2 & E2 & H)|(e & E2 & ->)].
  2:{ apply extract_images_effect in E2 as (-> & -> & -> & -> & ->).
      by repeat split. }
  apply extract_images_effect in E2 as (V2 & I2 & H2 & R2 & Q2).
  apply bindM_inv in H as [([] & st3 & E3 & H)|(e & E3 & ->)].
  2:{ destruct (decide (images = ∅)); [discriminate|].
      unfold bindM, get_state, modify in E3. discriminate. }
  assert (visited_urls st3 = visited_urls st2 ∧ harvested st3 = harvested st2
          ∧ image_urls st2 ⊆ image_urls st3 ∧ report_file st3 = report_file st2
          ∧ quit_calls st3 = quit_calls st2) as (V3 & H3 & I3 & R3 & Q3).
  { destruct (decide (images = ∅)).
    - injection E3 as <-. by repeat split.
    - unfold bindM, get_state, modify in E3. injection E3 as <-.
      repeat split; try done. cbn. set_solver. }
  assert (∀ st4, keeps st3 st4 →
    visited_urls st4 = {[cur_url c]} ∪ visited_urls st
    ∧ harvested st4 = cur_url c :: harvested st
    ∧ image_urls st ⊆ image_urls st4
    ∧ report_file st4 = report_file st
    ∧ quit_calls st4 = quit_calls st) as Hend.
  { intros st4 (V4 & I4 & H4 & R4 & Q4).
    rewrite V4, V3, V2, H4, H3, H2, I4, R4, R3, R2, Q4, Q3, Q2.
    repeat split; try done. rewrite <- I3, I2. done. }
  apply bindM_inv in H as [(has_next & st4 & E4 & H)|(e & E4 & ->)].
  2:{ apply frames_has_next_page in E4. destruct (Hend _ E4) as (?&?&?&?&?).
      by repeat split. }
  apply frames_has_next_page in E4.
  apply bindM_inv in H as [(next_url & st5 & E5 & H)|(e & E5 & ->)].
  2:{ assert (keeps st4 st') as K.
      { destruct has_next; [by eapply frames_go_to_next_page|by eapply frames_ret]. }
      destruct (Hend _ (keeps_trans _ _ _ E4 K)) as (?&?&?&?&?). by repeat split. }
  assert (keeps st3 st5) as K5.
  { eapply keeps_trans; [exact E4|].
    destruct has_next; [by eapply frames_go_to_next_page|by eapply frames_ret]. }
  destruct (truthy next_url && negb (opt_eqb next_url (Some (cur_url c)))) eqn:Et.
  - destruct next_url as [u|]; injection H as <- <-;
      destruct (Hend _ K5) as (?&?&?&?&?); repeat split; try done.
    intros c' [= <-]. exists FromPager, u. repeat split; [|by left].
    apply andb_true_iff in Et as [_ Et]. cbn in Et.
    intros ->. by rewrite String.eqb_refl in Et.
  - apply bindM_inv in H as [(links & st6 & E6 & H)|(e & E6 & ->)].
    2:{ apply frames_extract_links in E6.
        destruct (Hend _ (keeps_trans _ _ _ K5 E6)) as (?&?&?&?&?). by repeat split. }
    pose proof (extract_links_resolved _ _ _ _ E6) as Hres.
    apply frames_extract_links in E6.
    unfold bindM at 1, get_state in H.
    destruct (Hend _ (keeps_trans _ _ _ K5 E6)) as (V6 & H6 & I6 & R6 & Q6).
    destruct (filter (λ link, link ∉ visited_urls st6) (elements links))
      as [|link rest] eqn:Ef; injection H as <- <-; repeat split; try done.
    intros c' [= <-]. exists FromLinks, link.
    assert (link ∈ filter (λ link, link ∉ visited_urls st6) (elements links)) as Hin
      by (rewrite Ef; left).
    apply list_elem_of_filter in Hin as [Hnv Hin]. apply elem_of_elements in Hin.
    repeat split.
    + intros ->. apply Hnv. rewrite V6. set_solver.
    + right. repeat split; [done|]. by apply Hres.
Qed.


End round_facts.

(** ** Invariants of the traversal *)
Section traversal_facts.
Import Py Urllib Selenium Crawler Notions.
Variable chk : string → bool.
Variable W : world.
Variable self : config.

Lemma loop_test_cap (c : cursor) :
  loop_test self c = true → max_pages self = 0 ∨ page_count c < max_pages self.
Proof.
  unfold loop_test. intros H. apply andb_true_iff in H as [_ H].
  apply orb_true_iff in H as [H|H]; [left; lia|right; lia].
Qed.

(** At the head of the loop the page counter bounds the visited set, and
    a positive cap bounds the counter. *)
Lemma reachable_count (seed : string) (p : nat) (c : cursor) (st : state) :
  reachable chk W self seed (init_state p) c st →
  Z.of_nat (size (visited_urls st)) ≤ page_count c
  ∧ (0 < max_pages self → page_count c ≤ max_pages self).
Proof.
  induction 1 as [|c st c' st' _ [IHs IHc] Htest Hbody].
  - cbn. rewrite size_empty. lia.
  - destruct (decide (cur_url c ∈ visited_urls st)) as [Hin|Hnew].
    { rewrite (loop_body_visited _ _ _ _ _ Hin) in Hbody. discriminate. }
    destruct (loop_body_round _ _ _ _ _ _ _ Hnew Hbody) as (V & _ & _ & _ & _ & Hc).
    destruct (Hc c' eq_refl) as (o & u & -> & _). cbn [advance page_count].
    rewrite V, size_union, size_singleton by set_solver.
    apply loop_test_cap in Htest. lia.
Qed.

(** The harvest log and the visited set hold the same URLs, each once. *)
Lemma reachable_harvest (seed : string) (p : nat) (c : cursor) (st : state) :
  reachable chk W self seed (init_state p) c st →
  NoDup (harvested st) ∧ (∀ u, u ∈ harvested st ↔ u ∈ visited_urls st).
Proof.
  induction 1 as [|c st c' st' _ [IHn IHs] Htest Hbody].
  - cbn. split; [constructor|]. intros u. set_solver.
  - destruct (decide (cur_url c ∈ visited_urls st)) as [Hin|Hnew].
    { rewrite (loop_body_visited _ _ _ _ _ Hin) in Hbody. discriminate. }
    destruct (loop_body_round _ _ _ _ _ _ _ Hnew Hbody) as (V & H & _).
    rewrite V, H. split.
    + constructor; [by rewrite IHs|done].
    + intros u. rewrite elem_of_cons, IHs. set_solver.
Qed.





(** C7.  In every state a run goes through, the sequence of pages handed
    to [extract_images] has no repetition and holds exactly the URLs of the
    visited set.  This is by construction: a round whose current URL is
    already visited ends the loop at once and harvests nothing, and a link
    chosen by the fallback scan is never in the visited set. *)
Theorem no_page_visited_twice (seed : string) (p : nat) (st : state) :
  passes chk W self seed (init_state p) st →
  NoDup (harvested st)
  ∧ (∀ u, u ∈ harvested st ↔ u ∈ visited_urls st)
  ∧ (∀ c, cur_url c ∈ visited_urls st → loop_body chk W self c st = (Ok Break, st))
  ∧ (∀ c u st', loop_body chk W self c st = (Ok (Continue (advance FromLinks u c)), st') →
                u ∉ visited_urls st').
Proof.
  intros Hp. assert (NoDup (harvested st)
                     ∧ (∀ u, u ∈ harvested st ↔ u ∈ visited_urls st)) as [Hn Hs].
  { destruct Hp as [c st' Hr|c st0 r st' Hr Htest Hbody].
    - by eapply reachable_harvest.
    - destruct (reachable_harvest _ _ _ _ Hr) as [IHn IHs].
      destruct (decide (cur_url c ∈ visited_urls st0)) as [Hin|Hnew].
      { rewrite (loop_body_visited _ _ _ _ _ Hin) in Hbody.
        by injection Hbody as _ <-. }
      destruct (loop_body_round _ _ _ _ _ _ _ Hnew Hbody) as (V & H & _).
      rewrite V, H. split.
      + constructor; [by rewrite IHs|done].
      + intros u. rewrite elem_of_cons, IHs. set_solver. }
  repeat split; try done; try apply Hs.
  - intros c. apply loop_body_visited.
  - intros c u st' Hbody.
    destruct (decide (cur_url c ∈ visited_urls st)) as [Hin|Hnew].
    { rewrite (loop_body_visited _ _ _ _ _ Hin) in Hbody. discriminate. }
    destruct (loop_body_round _ _ _ _ _ _ _ Hnew Hbody) as (_ & _ & _ & _ & _ & Hc).
    destruct (Hc _ eq_refl) as (o & u' & Heq & _ & [->|(-> & Hnv & _)]).
    + discriminate.
    + by injection Heq as <-.
Qed.

End traversal_facts.

(** With [MAX_PAGES=0] a chain of twelve pages is walked to its end; with
    the default cap of ten the same walk stops after ten pages. *)
Example chain_of_twelve :
  Sample.pages_visited
    (Crawler.crawl Sample.any_host (Sample.chain 12) Sample.uncapped 20
       (Crawler.init_state 0)) = Some 12%nat
  ∧ Sample.pages_visited
      (Crawler.crawl Sample.any_host (Sample.chain 12) Sample.settings 20
         (Crawler.init_state 0)) = Some 10%nat.
Proof. split; vm_compute; reflexivity. Qed.

(** ** Scope of the cursor *)
Section scope_facts.
Import Py Urllib Selenium Crawler Notions.
Variable chk : string → bool.
Variable W : world.
Variable self : config.

(** A link that passed [is_valid_url] has the host of the seed. *)
Lemma resolved_link_in_scope (u : string) :
  resolved_link chk self u → in_scope chk self u.
Proof.
  intros (href & Hne & Hv & Ha). unfold is_valid_url in Hv.
  destruct (_ || _ || _); [discriminate|].
  unfold get_absolute_url in Ha.
  assert ((if negb (http_prefixed href) then urljoin_base chk self href else Ok href)
          = Ok u) as E by (by destruct (http_prefixed href)).
  rewrite E in Hv. cbn [bind] in Hv.
  destruct (base_domain chk self) as [bd|] eqn:Eb; cbn [bind] in Hv; [|discriminate].
  destruct (netloc_of chk u) as [ud|] eqn:Eu; cbn [bind] in Hv; [|discriminate].
  injection Hv as Hv. destruct bd as [d|]; [|discriminate].
  apply String.eqb_eq in Hv as ->. by exists d.
Qed.

(** [split_scheme] either falls back on the default it was given, or finds
    a non-empty scheme that does not depend on the default. *)
Lemma split_scheme_cases (x d : string) :
  (split_scheme x d).1 = d
  ∨ ((split_scheme x d).1 ≠ EmptyString
     ∧ ∀ d', (split_scheme x d').1 = (split_scheme x d).1).
Proof.
  unfold split_scheme. destruct (find ":" x) as [[|i]|]; [by left| |by left].
  destruct x as [|c0 x]; [by left|].
  destruct (is_ascii_alpha c0 && str_forall scheme_char (str_take (S i) (String c0 x)));
    [|by left].
  right. split; [|done]. cbn. discriminate.
Qed.

Lemma netloc_of_inv (u d : string) :
  netloc_of chk u = Ok d → ∃ r, urlparse chk u EmptyString = Ok r ∧ netloc r = d.
Proof.
  unfold netloc_of. destruct (urlparse chk u EmptyString) as [r|]; cbn [bind];
    [|discriminate].
  intros [= <-]. eauto.
Qed.

(** With an http(s) base, [urljoin] either builds an http(s) URL or hands
    back a [url] that has a scheme of its own. *)
Lemma urljoin_http_scheme (b u r : string) (pr : ParseResult) :
  http_prefixed b = true → String.eqb u EmptyString = false →
  urljoin chk b u = Ok r → urlparse chk r EmptyString = Ok pr →
  scheme pr ≠ EmptyString.
Proof.
  intros Hb Hu Hj Hp.
  assert (http_prefixed r = true → scheme pr ≠ EmptyString) as Hhttp.
  { intros Hr. destruct (urlparse_http_scheme chk _ _ _ Hr Hp) as [-> | ->]; discriminate. }
  unfold urljoin in Hj. rewrite Hu in Hj.
  destruct (String.eqb b EmptyString) eqn:Ee.
  { apply String.eqb_eq in Ee as ->. discriminate. }
  destruct (urlparse chk b EmptyString) as [pb|] eqn:Eb; cbn [bind] in Hj; [|discriminate].
  destruct (urlparse chk u (scheme pb)) as [pu|] eqn:Eu; cbn [bind] in Hj; [|discriminate].
  pose proof (urlparse_http_scheme chk _ _ _ Hb Eb) as Hsb.
  destruct (negb (String.eqb (scheme pu) (scheme pb))) eqn:Es; cbn [orb] in Hj.
  - injection Hj as <-. apply negb_true_iff, String.eqb_neq in Es.
    apply urlparse_scheme in Eu, Hp. rewrite Hp.
    assert (clean_scheme (scheme pb) = scheme pb) as Hc
      by (destruct Hsb as [-> | ->]; reflexivity).
    rewrite Hc in Eu.
    destruct (split_scheme_cases (clean_url u) (scheme pb)) as [Hd|[Hne Hall]].
    + congruence.
    + rewrite (Hall (clean_scheme EmptyString)). exact Hne.
  - apply negb_false_iff, String.eqb_eq in Es.
    assert (scheme pu = "http" ∨ scheme pu = "https") as Hsu by (by rewrite Es).
    assert (mem (scheme pu) uses_relative = true) as Hrel
      by (destruct Hsu as [-> | ->]; reflexivity).
    rewrite Hrel in Hj. cbn [negb] in Hj.
    apply Hhttp.
    destruct (mem (scheme pu) uses_netloc && negb (String.eqb (netloc pu) EmptyString)).
    { injection Hj as <-. by apply urlunparse_http. }
    destruct (String.eqb (path pu) EmptyString && String.eqb (params pu) EmptyString).
    { injection Hj as <-. by apply urlunparse_http. }
    injection Hj as <-. by apply urlunparse_http.
Qed.

Section seeded.
Variable seed : string.
Hypothesis seed_configured : base_url self = Some seed.
Hypothesis seed_http : http_prefixed seed = true.
Hypothesis seed_has_host : ∃ d, netloc_of chk seed = Ok d ∧ d ≠ EmptyString.

Lemma seed_in_scope : in_scope chk self seed.
Proof.
  destruct seed_has_host as (d & Hd & _). exists d. split; [done|].
  unfold base_domain. rewrite seed_configured, Hd. reflexivity.
Qed.

Lemma in_scope_has_host (u : string) :
  in_scope chk self u →
  ∃ r, urlparse chk u EmptyString = Ok r ∧ netloc r ≠ EmptyString.
Proof.
  intros (d & Hu & Hb). destruct seed_has_host as (d0 & Hd0 & Hne).
  unfold base_domain in Hb. rewrite seed_configured, Hd0 in Hb.
  injection Hb as <-. apply netloc_of_inv in Hu as (r & Hr & <-). eauto.
Qed.

Lemma seed_is_absolute : is_absolute chk seed.
Proof.
  destruct (in_scope_has_host _ seed_in_scope) as (r & Hr & Hn).
  exists r. repeat split; try done.
  destruct (urlparse_http_scheme chk _ _ _ seed_http Hr) as [-> | ->]; discriminate.
Qed.

Lemma resolved_link_absolute (u : string) :
  resolved_link chk self u → is_absolute chk u.
Proof.
  intros Hres. pose proof (resolved_link_in_scope _ Hres) as Hsc.
  destruct (in_scope_has_host _ Hsc) as (r & Hr & Hn).
  exists r. repeat split; try done.
  destruct Hres as (href & Hne & _ & Ha). unfold get_absolute_url in Ha.
  destruct (http_prefixed href) eqn:Hh.
  - injection Ha as <-.
    destruct (urlparse_http_scheme chk _ _ _ Hh Hr) as [-> | ->]; discriminate.
  - unfold urljoin_base in Ha. rewrite seed_configured in Ha.
    eapply urljoin_http_scheme; [exact seed_http| |exact Ha|exact Hr].
    by apply String.eqb_neq.
Qed.

(** The sibling path.  Every URL in the visited set was assigned to the
    cursor before, and the cursor is the latest assignment.  For a seed that
    starts with [http://] or [https://] and has a host, the values the
    cursor takes from the seed and from the fallback link scan, which
    filters with [is_valid_url], are in scope and absolute. *)
Lemma seed_and_link_cursors_in_scope (p : nat) (c : cursor) (st : state) :
  reachable chk W self seed (init_state p) c st →
  (∀ u, u ∈ visited_urls st → ∃ o, (o, u) ∈ assigned c)
  ∧ (∃ o, head (assigned c) = Some (o, cur_url c))
  ∧ (∀ o u, (o, u) ∈ assigned c → o ≠ FromPager →
            in_scope chk self u ∧ is_absolute chk u).
Proof.
  induction 1 as [|c st c' st' _ (IHv & IHh & IHs) Htest Hbody].
  - repeat split.
    + intros u. cbn. set_solver.
    + by exists FromSeed.
    + apply list_elem_of_singleton in H as [= _ ->]. apply seed_in_scope.
    + apply list_elem_of_singleton in H as [= _ ->]. apply seed_is_absolute.
  - destruct (decide (cur_url c ∈ visited_urls st)) as [Hin|Hnew].
    { rewrite (loop_body_visited _ _ _ _ _ Hin) in Hbody. discriminate. }
    destruct (loop_body_round _ _ _ _ _ _ _ Hnew Hbody) as (V & _ & _ & _ & _ & Hc).
    destruct (Hc c' eq_refl) as (o & u & -> & _ & Ho). cbn [advance assigned cur_url].
    split; [|split].
    + intros v. rewrite V. intros Hv. apply elem_of_union in Hv as [Hv|Hv].
      * apply elem_of_singleton in Hv as ->. destruct IHh as (o' & Hh).
        exists o'. right. destruct (assigned c); [discriminate|].
        injection Hh as ->. left.
      * destruct (IHv _ Hv) as (o' & Ho'). exists o'. by right.
    + by exists o.
    + intros o' v Hv Hnp.
      apply elem_of_cons in Hv as [[= -> ->]|Hv]; [|by apply (IHs o')].
      destruct Ho as [->|(-> & _ & Hres)]; [done|].
      split; [by apply resolved_link_in_scope|by apply resolved_link_absolute].
Qed.

End seeded.
End scope_facts.

(** C1 at the failing input.  The seed page of the site has a next control
    that leads to another host.  After one round the cursor holds that URL,
    assigned from the pager; it is not in scope, and [is_valid_url], the test
    the link scan applies to every link before it may become the cursor,
    rejects it.  The run goes on to visit it. *)
Theorem pager_leaves_the_seed_domain :
  (∃ c st,
     Notions.reachable Sample.any_host Sample.offsite Sample.settings Sample.seed
       (Crawler.init_state 0) c st
     ∧ Crawler.cur_url c = "http://other.test/2"
     ∧ Crawler.assigned c
       = [(Crawler.FromPager, "http://other.test/2"); (Crawler.FromSeed, Sample.seed)])
  ∧ (∃ st, Crawler.crawl Sample.any_host Sample.offsite Sample.settings 5
             (Crawler.init_state 0) = Some (Py.Ok tt, st)
           ∧ "http://other.test/2" ∈ Crawler.visited_urls st)
  ∧ Crawler.netloc_of Sample.any_host "http://other.test/2" = Py.Ok "other.test"
  ∧ Crawler.base_domain Sample.any_host Sample.settings = Py.Ok (Some "example.com")
  ∧ ¬ Notions.in_scope Sample.any_host Sample.settings "http://other.test/2"
  ∧ Crawler.is_valid_url Sample.any_host Sample.settings (Some "http://other.test/2")
    = Py.Ok false.
Proof.
  assert (Crawler.netloc_of Sample.any_host "http://other.test/2" = Py.Ok "other.test")
    as Hn by (vm_compute; reflexivity).
  assert (Crawler.base_domain Sample.any_host Sample.settings
          = Py.Ok (Some "example.com")) as Hb by (vm_compute; reflexivity).
  split; [|split; [|split; [|split; [|split]]]].
  - eexists _, _. split; [|split].
    + eapply Notions.reach_round; [apply Notions.reach_start|reflexivity|].
      vm_compute. reflexivity.
    + reflexivity.
    + reflexivity.
  - eexists. split; [vm_compute; reflexivity|].
    refine (bool_decide_unpack _ _). vm_compute. exact I.
  - exact Hn.
  - exact Hb.
  - intros (d & Hd & Hd'). rewrite Hn in Hd. rewrite Hb in Hd'. congruence.
  - vm_compute. reflexivity.
Qed.

(** ** The harvest of a page *)
Section harvest_scope.
Import Py Urllib Selenium Crawler Notions.
Variable chk : string → bool.
Variable W : world.
Variable self : config.

(** What the harvest keeps is the resolution of a value that passed
    [is_valid_url]. *)
Lemma harvest_resolved (imgs : list element) (u : string) :
  u ∈ harvest chk self imgs → resolved_link chk self u.
Proof.
  intros Hu. apply elem_of_harvest in Hu as (img & s & _ & _ & Hne & Hv & Ha).
  by exists s.
Qed.

(** C8.  On a page that loads, [extract_images] returns exactly the union
    of what the [img] elements contribute one by one: for each, the primary
    source, or the lazy-load source when the primary is missing or empty; the
    resolved URL goes in exactly when the source passes [is_valid_url]; an
    element whose attributes cannot be read, or whose URL is rejected by the
    parser, contributes nothing and the others are harvested all the same.
    Every URL of the harvest has the host of the seed, and, the seed being an
    [http://] or [https://] URL with a host, is absolute: it has a scheme
    and a host of its own. *)
Theorem extract_images_harvest (url : string) (st : state) (p : nat)
    (imgs : list element) :
  get W url (driver st) = (Ok tt, p) →
  wait_ready (pages W p) = Ok tt →
  find_elements (pages W p) (ByTagName "img") = Ok imgs →
  Forall uninterrupted imgs →
  (extract_images chk W self url st).1 = Ok (harvest chk self imgs)
  ∧ (∀ u, u ∈ harvest chk self imgs ↔
          ∃ img s, img ∈ imgs ∧ chosen_source img = Some s ∧ s ≠ EmptyString
                   ∧ is_valid_url chk self (Some s) = Ok true
                   ∧ get_absolute_url chk self (Some s) = Ok u)
  ∧ (∀ u, u ∈ harvest chk self imgs → in_scope chk self u)
  ∧ (∀ seed, base_url self = Some seed → http_prefixed seed = true →
             (∃ d, netloc_of chk seed = Ok d ∧ d ≠ EmptyString) →
             ∀ u, u ∈ harvest chk self imgs → is_absolute chk u).
Proof.
  intros Hget Hready Hfind Himgs.
  split; [by eapply extract_images_loaded|].
  split; [apply elem_of_harvest|].
  split.
  - intros u Hu. apply resolved_link_in_scope. by eapply harvest_resolved.
  - intros seed Hs Hh Hd u Hu.
    eapply resolved_link_absolute; [exact Hs|exact Hh|exact Hd|].
    by eapply harvest_resolved.
Qed.

End harvest_scope.

Lemma extract_images_harvest_witness :
  (Crawler.extract_images Sample.any_host Sample.gallery Sample.settings Sample.seed
     (Crawler.init_state 0)).1
  = Py.Ok (Notions.harvest Sample.any_host Sample.settings Sample.gallery_images)
  ∧ "http://example.com/img/b.png"
    ∈ Notions.harvest Sample.any_host Sample.settings Sample.gallery_images
  ∧ Notions.in_scope Sample.any_host Sample.settings "http://example.com/img/b.png"
  ∧ Notions.is_absolute Sample.any_host "http://example.com/img/b.png".
Proof.
  assert (Forall Notions.uninterrupted Sample.gallery_images) as Hu.
  { repeat constructor; intros name; cbn;
      repeat match goal with |- context [if ?c then _ else _] => destruct c end;
      discriminate. }
  assert (Selenium.get Sample.gallery Sample.seed (Crawler.driver (Crawler.init_state 0))
          = (Py.Ok tt, 1%nat)) as Hg by reflexivity.
  assert (Selenium.wait_ready (Selenium.pages Sample.gallery 1) = Py.Ok tt)
    as Hw by reflexivity.
  assert (Selenium.find_elements (Selenium.pages Sample.gallery 1)
            (Selenium.ByTagName "img") = Py.Ok Sample.gallery_images)
    as Hf by reflexivity.
  destruct (extract_images_harvest Sample.any_host Sample.gallery Sample.settings
              Sample.seed (Crawler.init_state 0) 1 Sample.gallery_images Hg Hw Hf Hu)
    as (Hall & Hone & Hscope & Habs).
  assert ("http://example.com/img/b.png"
          ∈ Notions.harvest Sample.any_host Sample.settings Sample.gallery_images) as Hin.
  { apply Hone. exists Sample.img_lazy, "/img/b.png".
    split; [|split; [|split; [|split]]].
    - unfold Sample.gallery_images. do 2 apply list_elem_of_further.
      apply list_elem_of_here.
    - vm_compute. reflexivity.
    - discriminate.
    - vm_compute. reflexivity.
    - vm_compute. reflexivity. }
  split; [exact Hall|]. split; [exact Hin|]. split; [by apply Hscope|].
  apply (Habs Sample.seed); [reflexivity|vm_compute; reflexivity| |exact Hin].
  exists "example.com". split; [vm_compute; reflexivity|discriminate].
Defined.

(** ** The [while] loop and the states of the transition system *)
Section loop_facts.
Import Py Urllib Selenium Crawler Notions.
Variable chk : string → bool.
Variable W : world.
Variable self : config.

(** Where the loop of the program stops is a state the transition system
    passes through. *)
Lemma crawl_loop_passes (seed : string) (st0 : state) (fuel : nat) (c : cursor)
    (st : state) (r : res unit) (st' : state) :
  reachable chk W self seed st0 c st →
  crawl_loop chk W self fuel c st = Some (r, st') →
  passes chk W self seed st0 st'.
Proof.
  revert c st. induction fuel as [|fuel IH]; intros c st Hr; cbn [crawl_loop].
  - destruct (loop_test self c); [discriminate|].
    intros [= _ <-]. by eapply pass_head.
  - destruct (loop_test self c) eqn:Htest; [|intros [= _ <-]; by eapply pass_head].
    destruct (loop_body chk W self c st) as [[[c'|]|e] st1] eqn:Hbody.
    + apply IH. by eapply reach_round.
    + intros [= _ <-]. by eapply pass_round.
    + intros [= _ <-]. by eapply pass_round.
Qed.



(** With a positive cap the loop ends within [MAX_PAGES] rounds. *)
Lemma crawl_loop_terminates (fuel : nat) (c : cursor) (st : state) :
  0 < max_pages self →
  max_pages self - page_count c ≤ Z.of_nat fuel →
  is_Some (crawl_loop chk W self fuel c st).
Proof.
  intros Hpos. revert c st. induction fuel as [|fuel IH]; intros c st Hf;
    cbn [crawl_loop].
  - destruct (loop_test self c) eqn:Htest; [|eauto].
    apply loop_test_cap in Htest. lia.
  - destruct (loop_test self c) eqn:Htest; [|eauto].
    destruct (loop_body chk W self c st) as [[[c'|]|e] st1] eqn:Hbody; [|eauto..].
    apply IH.
    destruct (decide (cur_url c ∈ visited_urls st)) as [Hin|Hnew].
    { rewrite (loop_body_visited _ _ _ _ _ Hin) in Hbody. discriminate. }
    destruct (loop_body_round _ _ _ _ _ _ _ Hnew Hbody) as (_ & _ & _ & _ & _ & Hc).
    destruct (Hc c' eq_refl) as (o & u & -> & _). cbn [advance page_count]. lia.
Qed.




Lemma crawl_from_returns (fuel : nat) (seed : string) (st : state) :
  0 < max_pages self → max_pages self ≤ Z.of_nat fuel →
  is_Some (crawl_from chk W self fuel seed st).
Proof.
  intros Hpos Hf. unfold crawl_from.
  destruct (crawl_loop_terminates fuel (mkCursor seed 0 [(FromSeed, seed)]) st Hpos)
    as [[r1 st1] ->]; [cbn; lia|].
  destruct r1 as [[]|e]; [destruct (generate_html_report W st1)|]; eauto.
Qed.

(** What [crawl] leaves behind is, as far as the two sets and the harvest
    log go, a state of the transition system. *)
Lemma crawl_from_passes (fuel : nat) (seed : string) (st : state) (r : res unit)
    (st' : state) :
  crawl_from chk W self fuel seed st = Some (r, st') →
  ∃ st1, passes chk W self seed st st1
         ∧ visited_urls st' = visited_urls st1
         ∧ harvested st' = harvested st1.
Proof.
  unfold crawl_from.
  destruct (crawl_loop chk W self fuel _ st) as [[r1 st1]|] eqn:E; [|discriminate].
  apply (crawl_loop_passes seed st) in E; [|apply reach_start].
  assert (∀ a b x, cleanup W a = (x, b) →
            visited_urls b = visited_urls a ∧ harvested b = harvested a) as Hc.
  { unfold cleanup, try_exceptM, bindM, get_state, modify, liftM, retM. cbn.
    intros a b x. destruct (quit W) as [[]|e]; [by intros [= _ <-]|].
    destruct (is_Exception e); by intros [= _ <-]. }
  assert (∀ a b x, generate_html_report W a = (x, b) →
            visited_urls b = visited_urls a ∧ harvested b = harvested a) as Hg.
  { intros a b x. destruct (decide (image_urls a = ∅)) as [He|Hne].
    - rewrite (generate_html_report_empty _ _ He). by intros [= _ <-].
    - rewrite (generate_html_report_nonempty _ _ Hne).
      destruct (write_report W); by intros [= _ <-]. }
  destruct r1 as [[]|e].
  - destruct (generate_html_report W st1) as [r2 st2] eqn:E2.
    intros [= H]. apply Hc in H as [H1 H2]. apply Hg in E2 as [G1 G2].
    exists st1. repeat split; [done|congruence..].
  - intros [= H]. apply Hc in H as [H1 H2]. exists st1. by repeat split.
Qed.

(** The bound and the absence of repetition, for the run as a whole. *)
Lemma crawl_visits_within_cap (fuel : nat) (p : nat) (r : res unit) (st' : state) :
  0 < max_pages self →
  crawl chk W self fuel (init_state p) = Some (r, st') →
  Z.of_nat (size (visited_urls st')) ≤ max_pages self ∧ NoDup (harvested st').
Proof.
  intros Hpos. unfold crawl.
  assert (Z.of_nat (size (visited_urls (init_state p))) ≤ max_pages self
          ∧ NoDup (harvested (init_state p))) as Hinit.
  { cbn [init_state visited_urls harvested]. rewrite size_empty.
    split; [lia|constructor]. }
  destruct (base_url self) as [seed|]; [|by intros [= _ <-]].
  destruct (String.eqb seed EmptyString); [by intros [= _ <-]|].
  clear Hinit. intros H. apply crawl_from_passes in H as (st1 & Hp & -> & ->).
  split.
  - destruct Hp as [c st2 Hr|c st0 r0 st2 Hr Htest Hbody].
    + destruct (reachable_count _ _ _ _ _ _ _ Hr) as [Hs Hc]. specialize (Hc Hpos). lia.
    + destruct (reachable_count _ _ _ _ _ _ _ Hr) as [Hs Hc]. specialize (Hc Hpos).
      destruct (decide (cur_url c ∈ visited_urls st0)) as [Hin|Hnew].
      { rewrite (loop_body_visited _ _ _ _ _ Hin) in Hbody.
        injection Hbody as _ <-. lia. }
      destruct (loop_body_round _ _ _ _ _ _ _ Hnew Hbody) as (V & _).
      rewrite V, size_union, size_singleton by set_solver.
      apply loop_test_cap in Htest. lia.
  - destruct Hp as [c st2 Hr|c st0 r0 st2 Hr Htest Hbody].
    + by destruct (reachable_harvest _ _ _ _ _ _ _ Hr).
    + destruct (reachable_harvest _ _ _ _ _ _ _ Hr) as [IHn IHs].
      destruct (decide (cur_url c ∈ visited_urls st0)) as [Hin|Hnew].
      { rewrite (loop_body_visited _ _ _ _ _ Hin) in Hbody.
        by injection Hbody as _ <-. }
      destruct (loop_body_round _ _ _ _ _ _ _ Hnew Hbody) as (V & H & _).
      rewrite H. constructor; [by rewrite IHs|done].
Qed.

End loop_facts.



Lemma no_page_visited_twice_witness :
  ∃ st, Crawler.crawl_loop Sample.any_host Sample2.circuit Sample.settings 5
          (Notions.start Sample.seed) (Crawler.init_state 0) = Some (Py.Ok tt, st)
        ∧ Crawler.harvested st = [Sample2.second; Sample.seed]
        ∧ NoDup (Crawler.harvested st)
        ∧ Crawler.loop_body Sample.any_host Sample2.circuit Sample.settings
            (Crawler.mkCursor Sample.seed 2 []) st = (Py.Ok Crawler.Break, st).
Proof.
  assert (∃ st, Crawler.crawl_loop Sample.any_host Sample2.circuit Sample.settings 5
                  (Notions.start Sample.seed) (Crawler.init_state 0)
                = Some (Py.Ok tt, st)
                ∧ Crawler.harvested st = [Sample2.second; Sample.seed]
                ∧ Sample.seed ∈ Crawler.visited_urls st) as (st & E & Hh & Hv).
  { eexists. split; [vm_compute; reflexivity|]. split; [vm_compute; reflexivity|].
    refine (bool_decide_unpack _ _). vm_compute. exact I. }
  destruct (no_page_visited_twice Sample.any_host Sample2.circuit Sample.settings
              Sample.seed 0 st) as (Hnodup & _ & Hbreak & _).
  { eapply crawl_loop_passes; [apply Notions.reach_start|exact E]. }
  exists st. split; [exact E|]. split; [exact Hh|]. split; [exact Hnodup|].
  apply Hbreak. exact Hv.
Defined.

(** The three rounds of the run above: the link scan leaves out the seed,
    which is visited, and goes on to the second page; the pager of the second
    page leads back to the seed; the seed is found in the visited set and the
    loop is left. *)
Example circuit_rounds :
  ∃ c1 st1 c2 st2,
    Crawler.loop_body Sample.any_host Sample2.circuit Sample.settings
      (Notions.start Sample.seed) (Crawler.init_state 0)
    = (Py.Ok (Crawler.Continue c1), st1)
    ∧ Crawler.assigned c1
      = [(Crawler.FromLinks, Sample2.second); (Crawler.FromSeed, Sample.seed)]
    ∧ Crawler.loop_body Sample.any_host Sample2.circuit Sample.settings c1 st1
      = (Py.Ok (Crawler.Continue c2), st2)
    ∧ Crawler.assigned c2
      = [(Crawler.FromPager, Sample.seed); (Crawler.FromLinks, Sample2.second);
         (Crawler.FromSeed, Sample.seed)]
    ∧ Crawler.loop_body Sample.any_host Sample2.circuit Sample.settings c2 st2
      = (Py.Ok Crawler.Break, st2).
Proof.
  eexists _, _, _, _.
  split; [vm_compute; reflexivity|]. split; [reflexivity|].
  split; [vm_compute; reflexivity|]. split; [reflexivity|].
  vm_compute. reflexivity.
Qed.

(** ** Start-up without a seed *)
Section seedless_facts.
Import Py Urllib Selenium Crawler Notions.

Lemma bindI_inv {A B : Type} (m : I A) (k : A → I B) (l : list effect)
    (b : B) (l' : list effect) :
  bindI m k l = (Ok b, l') → ∃ a l1, m l = (Ok a, l1) ∧ k a l1 = (Ok b, l').
Proof.
  unfold bindI. destruct (m l) as [[a|e] l1]; [eauto|discriminate].
Qed.

Lemma call_log {A : Type} (e : effect) (x : res A) (l : list effect) (r : res A)
    (l' : list effect) :
  call e x l = (r, l') → l' = l ++ [e].
Proof. by intros [= _ <-]. Qed.

(** When [setup_driver] succeeds, a browser was started. *)
Lemma setup_driver_started (h : host) (l : list effect) (p : nat) (l' : list effect) :
  setup_driver h l = (Ok p, l') → StartChrome ∈ l' ∨ StartDefaultChrome ∈ l'.
Proof.
  unfold setup_driver, try_exceptI at 1.
  match goal with |- context [match ?m l with _ => _ end] =>
    destruct (m l) as [[a|e] l1] eqn:E end.
  - intros [= <- <-]. left.
    apply bindI_inv in E as (service & l2 & _ & E).
    apply call_log in E as ->. set_solver.
  - destruct (is_Exception e); [|discriminate].
    unfold try_exceptI, call, pureI.
    destruct (start_default_chrome h) as [q|e'].
    + intros [= <- <-]. right. set_solver.
    + destruct (is_Exception e'); discriminate.
Qed.

Lemma init_inv (h : host) (self : config) (st : state) (calls : list effect) :
  __init__ h [] = (Ok (self, st), calls) →
  base_url self = environ h "START_URL"
  ∧ (∃ p, st = init_state p)
  ∧ (StartChrome ∈ calls ∨ StartDefaultChrome ∈ calls).
Proof.
  unfold __init__. intros H.
  apply bindI_inv in H as (cap & l1 & _ & H).
  apply bindI_inv in H as (load_timeout & l2 & _ & H).
  apply bindI_inv in H as (? & l3 & _ & H).
  apply bindI_inv in H as (? & l4 & _ & H).
  apply bindI_inv in H as (? & l5 & _ & H).
  apply bindI_inv in H as (p & l6 & Hd & H).
  injection H as <- <- <-. cbn [base_url]. repeat split; [by exists p|].
  by eapply setup_driver_started.
Qed.

(** C4 at the failing input.  With [START_URL] unset or empty, start-up
    succeeds and opens a browser, [crawl] returns at its first test, before
    the [try] whose [finally] calls [cleanup], and [main] ends with the
    session never quit. *)
Theorem crawl_without_seed_skips_cleanup (chk : string → bool) (W : world)
    (h : host) (fuel : nat) (self : config) (st : state) (calls : list effect) :
  environ h "START_URL" = None ∨ environ h "START_URL" = Some EmptyString →
  __init__ h [] = (Ok (self, st), calls) →
  main chk W h fuel = Crawled calls self (Ok tt) st
  ∧ (StartChrome ∈ calls ∨ StartDefaultChrome ∈ calls)
  ∧ quit_calls st = 0%nat.
Proof.
  intros Henv Hinit. destruct (init_inv _ _ _ _ Hinit) as (Hb & (p & ->) & Hc).
  repeat split; try done.
  unfold main. rewrite Hinit. unfold crawl. rewrite Hb.
  by destruct Henv as [-> | ->].
Qed.

End seedless_facts.

Lemma crawl_without_seed_skips_cleanup_witness :
  Crawler.main Sample.any_host Sample.offline (Sample.machine Sample.env_no_seed) 3
  = Crawler.Crawled
      [Crawler.Mkdir "RESULT"; Crawler.Mkdir "RESULT/20240101_000000";
       Crawler.OpenLog; Crawler.InstallDriver; Crawler.StartChrome]
      (Crawler.mkConfig None ".next-page" 10 30 None) (Py.Ok tt)
      (Crawler.init_state 0).
Proof.
  apply (crawl_without_seed_skips_cleanup Sample.any_host Sample.offline
           (Sample.machine Sample.env_no_seed) 3).
  - left. reflexivity.
  - reflexivity.
Defined.

(** ** The heuristic link scan *)
Section heuristic_facts.
Import Py Urllib Selenium Crawler Notions.

(** A link whose [href] contains [p=] is followed whatever the current URL
    is, the current URL itself included. *)
Lemma follow_test_query (current href : string) :
  contains "p=" (lower href) = true → follow_test current href = true.
Proof. intros H. unfold follow_test. rewrite H. apply orb_true_r. Qed.

(** Without [p=], a link is followed only if it differs from the current
    URL. *)
Lemma follow_test_page (current href : string) :
  contains "p=" (lower href) = false →
  follow_test current href = true →
  href ≠ current ∧ contains "page" (lower href) = true.
Proof.
  intros Hq. unfold follow_test. rewrite Hq, orb_false_r.
  intros H. apply andb_true_iff in H as [H Hp]. apply andb_true_iff in H as [_ H].
  split; [|done]. intros ->. by rewrite String.eqb_refl in H.
Qed.

(** C2 at the failing input.  On the listing page, whose pager links the
    current page to itself and whose next control has no [href],
    [go_to_next_page] requests the current URL again through the heuristic
    scan and returns it. *)
Theorem heuristic_follows_current_url :
  current_url (pages Sample.self_linked 1) = Ok Sample.listing_url
  ∧ follow_test Sample.listing_url Sample.listing_url = true
  ∧ go_to_next_page Sample.self_linked Sample.listing (init_state 1)
    = (Ok (Some Sample.listing_url), log_request Sample.listing_url (init_state 1)).
Proof. repeat split. Qed.

End heuristic_facts.

(** * Further properties *)

(** ** More on the URL classifier *)
Section classifier_more.
Import Py Urllib Selenium Crawler Notions Behaviour.
Variable chk : string → bool.
Variable self : config.

Lemma http_prefixed_not_rejected (a : string) :
  http_prefixed a = true →
  String.eqb a EmptyString || startswith "javascript:" a || startswith "mailto:" a
  = false.
Proof.
  intros H. destruct (http_prefixed_split _ H) as [r [-> | ->]]; reflexivity.
Qed.

Lemma is_valid_url_resolved (u a : string) :
  is_valid_url chk self (Some u) = Ok true →
  get_absolute_url chk self (Some u) = Ok a →
  ∃ d, netloc_of chk a = Ok d ∧ base_domain chk self = Ok (Some d).
Proof.
  intros Hv Ha.
  apply (resolved_link_in_scope chk self a). exists u. repeat split; try done.
  intros ->. discriminate.
Qed.

(** X14.  A value that [is_valid_url] accepts can be resolved by
    [get_absolute_url]; the resolved URL has the host of the seed and, for a
    seed that starts with [http://] or [https://], is accepted again. *)
Theorem valid_url_resolves_in_scope (u : string) :
  is_valid_url chk self (Some u) = Ok true →
  ∃ a, get_absolute_url chk self (Some u) = Ok a
       ∧ in_scope chk self a
       ∧ (http_seed self → is_valid_url chk self (Some a) = Ok true).
Proof.
  intros Hv.
  assert (∃ a, get_absolute_url chk self (Some u) = Ok a) as [a Ha].
  { unfold is_valid_url in Hv. destruct (_ || _ || _); [discriminate|].
    unfold get_absolute_url.
    destruct (http_prefixed u); cbn [negb] in Hv; [by eauto|].
    destruct (urljoin_base chk self u) as [a|]; [by eauto|discriminate]. }
  exists a. split; [done|].
  destruct (is_valid_url_resolved _ _ Hv Ha) as (d & Hd & Hb).
  split; [by exists d|]. intros Hseed.
  destruct (http_prefixed a) eqn:Hp.
  - unfold is_valid_url. rewrite (http_prefixed_not_rejected _ Hp), Hp.
    cbn [negb bind]. rewrite Hb. cbn [bind]. rewrite Hd. cbn [bind opt_eqb].
    by rewrite String.eqb_refl.
  - assert (a = u) as ->; [|done].
    unfold get_absolute_url in Ha.
    destruct (http_prefixed u) eqn:Hu; [congruence|].
    unfold urljoin_base in Ha. destruct (base_url self) as [b|] eqn:Eb; [|congruence].
    destruct (urljoin_http chk b u a (Hseed b Eb) Ha) as [->|Hq]; [done|congruence].
Qed.

End classifier_more.

Lemma valid_url_resolves_in_scope_witness :
  (∃ a, Crawler.get_absolute_url Sample.any_host Sample.settings (Some "/img/b.png")
        = Py.Ok a
        ∧ Notions.in_scope Sample.any_host Sample.settings a
        ∧ Crawler.is_valid_url Sample.any_host Sample.settings (Some a) = Py.Ok true)
  ∧ (∃ a, Crawler.get_absolute_url Sample.any_host Sample.bare (Some "b") = Py.Ok a
          ∧ Notions.in_scope Sample.any_host Sample.bare a).
Proof.
  split.
  - destruct (valid_url_resolves_in_scope Sample.any_host Sample.settings "/img/b.png")
      as (a & Ha & Hs & Hv); [vm_compute; reflexivity|].
    exists a. split; [exact Ha|]. split; [exact Hs|].
    apply Hv. intros b [= <-]. reflexivity.
  - destruct (valid_url_resolves_in_scope Sample.any_host Sample.bare "b")
      as (a & Ha & Hs & _); [vm_compute; reflexivity|].
    exists a. split; [exact Ha|exact Hs].
Defined.

(** ** More on [extract_links] and [extract_images] *)
Section extraction_more.
Import Py Urllib Selenium Crawler Notions Behaviour.
Variable chk : string → bool.
Variable W : world.
Variable self : config.

Lemma for_each_link_step (anchors : list element) (acc : gset string) :
  Forall uninterrupted anchors →
  for_each (link_step chk self) anchors acc = Ok (links_of chk self anchors ∪ acc).
Proof.
  intros H. revert acc. induction H as [|a anchors Ha _ IH]; intros acc.
  - cbn. f_equal. unfold links_of. set_solver.
  - cbn [for_each]. rewrite (link_step_contribution _ _ _ _ Ha). cbn [bind].
    rewrite IH. f_equal. unfold links_of. rewrite fmap_cons, union_list_cons.
    set_solver.
Qed.

Lemma elem_of_contribution (value : option string) (u : string) :
  u ∈ contribution chk self value ↔
  ∃ s, value = Some s ∧ s ≠ EmptyString
       ∧ is_valid_url chk self (Some s) = Ok true
       ∧ get_absolute_url chk self (Some s) = Ok u.
Proof.
  unfold contribution. split.
  - destruct value as [s|]; [|set_solver].
    destruct (String.eqb s EmptyString) eqn:Ee; [set_solver|].
    destruct (is_valid_url chk self (Some s)) as [[]|] eqn:Ev; [|set_solver..].
    destruct (get_absolute_url chk self (Some s)) as [a|] eqn:Ea; [|set_solver].
    intros Hu. apply elem_of_singleton in Hu as ->.
    exists s. repeat split; try done. intros ->. discriminate.
  - intros (s & -> & Hne & Ev & Ea). rewrite Ev, Ea.
    destruct (String.eqb s EmptyString) eqn:Ee; [|set_solver].
    by apply String.eqb_eq in Ee.
Qed.

(** X1.  On a page that loads, [extract_links] returns exactly the union
    of what the anchors contribute one by one: the resolved [href] of every
    anchor whose [href] is not empty and passes [is_valid_url].  An anchor
    whose [href] cannot be read, or is rejected, adds nothing and does not
    stop the scan. *)
Theorem extract_links_collects (url : string) (st : state) (p : nat)
    (anchors : list element) :
  get W url (driver st) = (Ok tt, p) →
  wait_ready (pages W p) = Ok tt →
  find_elements (pages W p) (ByTagName "a") = Ok anchors →
  Forall uninterrupted anchors →
  (extract_links chk W self url st).1 = Ok (links_of chk self anchors)
  ∧ ∀ u, u ∈ links_of chk self anchors ↔
         ∃ a href, a ∈ anchors ∧ get_attribute a "href" = Ok (Some href)
                   ∧ href ≠ EmptyString
                   ∧ is_valid_url chk self (Some href) = Ok true
                   ∧ get_absolute_url chk self (Some href) = Ok u.
Proof.
  intros Hget Hready Hfind Hanchors. split.
  - unfold extract_links, bindM, try_exceptM, driver_get, driver_wait_ready,
      driver_find_elements, liftM.
    rewrite Hget. cbn [driver set_driver]. rewrite Hready, Hfind.
    rewrite (for_each_link_step _ _ Hanchors). cbn [fst]. f_equal. set_solver.
  - intros u. unfold links_of. rewrite elem_of_union_list. split.
    + intros (X & HX & Hu). apply list_elem_of_fmap in HX as (a & -> & Ha).
      apply elem_of_contribution in Hu as (s & Hs & Hne & Ev & Ea).
      exists a, s. repeat split; try done.
      unfold anchor_target in Hs. destruct (get_attribute a "href"); congruence.
    + intros (a & href & Ha & Hh & Hne & Ev & Ea).
      exists (contribution chk self (anchor_target a)). split.
      * apply list_elem_of_fmap. eauto.
      * apply elem_of_contribution. exists href. unfold anchor_target.
        by rewrite Hh.
Qed.

(** A page that does not load, or does not get ready, yields no image. *)
Lemma extract_images_of_failed_page (url : string) (st : state) (e : exn) (p : nat) :
  is_Exception e = true →
  get W url (driver st) = (Raise e, p)
  ∨ (get W url (driver st) = (Ok tt, p) ∧ wait_ready (pages W p) = Raise e) →
  (extract_images chk W self url st).1 = Ok ∅.
Proof.
  intros He [Hg|[Hg Hw]];
    unfold extract_images, bindM, try_exceptM, driver_get, driver_wait_ready, modify;
    cbn [driver log_harvest]; rewrite Hg.
  - by rewrite He.
  - cbn [driver set_driver]. rewrite Hw. by rewrite He.
Qed.

(** X2.  [extract_images] and [extract_links] let no [Exception] out: the
    only thing they can raise is a [KeyboardInterrupt].  When [driver.get]
    fails, or the wait for the page times out, each returns the empty set. *)
Theorem page_extraction_swallows_failures (url : string) (st : state) :
  (∀ e, (extract_images chk W self url st).1 = Raise e → e = KeyboardInterrupt)
  ∧ (∀ e, (extract_links chk W self url st).1 = Raise e → e = KeyboardInterrupt)
  ∧ (∀ e p, get W url (driver st) = (Raise e, p) → is_Exception e = true →
            (extract_images chk W self url st).1 = Ok ∅
            ∧ (extract_links chk W self url st).1 = Ok ∅)
  ∧ (∀ e p, get W url (driver st) = (Ok tt, p) →
            wait_ready (pages W p) = Raise e → is_Exception e = true →
            (extract_images chk W self url st).1 = Ok ∅
            ∧ (extract_links chk W self url st).1 = Ok ∅).
Proof.
  repeat split.
  - intros e. unfold extract_images. unfold bindM at 1. cbn [modify].
    apply try_exceptM_value.
  - intros e. unfold extract_links. apply try_exceptM_value.
  - unfold extract_images, bindM, try_exceptM, driver_get, modify.
    cbn [driver log_harvest]. rewrite H. by rewrite H0.
  - unfold extract_links, bindM, try_exceptM, driver_get.
    rewrite H. by rewrite H0.
  - unfold extract_images, bindM, try_exceptM, driver_get, driver_wait_ready, modify.
    cbn [driver log_harvest]. rewrite H. cbn [driver set_driver].
    rewrite H0. by rewrite H1.
  - unfold extract_links, bindM, try_exceptM, driver_get, driver_wait_ready.
    rewrite H. cbn [driver set_driver]. rewrite H0. by rewrite H1.
Qed.

End extraction_more.

Lemma extract_links_collects_witness :
  (Crawler.extract_links Sample.any_host Sample2.directory Sample.settings Sample.seed
     (Crawler.init_state 0)).1
  = Py.Ok (Behaviour.links_of Sample.any_host Sample.settings Sample2.directory_anchors).
Proof.
  apply (extract_links_collects Sample.any_host Sample2.directory Sample.settings
           Sample.seed (Crawler.init_state 0) 1 Sample2.directory_anchors).
  - reflexivity.
  - reflexivity.
  - reflexivity.
  - unfold Sample2.directory_anchors.
    repeat (apply Forall_cons_2;
      [intros name;
       unfold Sample2.anchor, Sample.control, Sample.link_attributes,
         Sample.with_attributes; cbn;
       repeat match goal with |- context [if ?c then _ else _] => destruct c end;
       discriminate|]).
    apply Forall_nil_2.
Defined.

(** On the sample page the anchors leave one link: the relative one,
    resolved. *)
Example directory_links :
  Behaviour.links_of Sample.any_host Sample.settings Sample2.directory_anchors
  = {["http://example.com/page/2"]}.
Proof. refine (bool_decide_unpack _ _). vm_compute. exact I. Qed.

Lemma page_extraction_swallows_failures_witness :
  (Crawler.extract_images Sample.any_host Sample.offline Sample.settings Sample.seed
     (Crawler.init_state 0)).1 = Py.Ok ∅.
Proof.
  destruct (page_extraction_swallows_failures Sample.any_host Sample.offline
              Sample.settings Sample.seed (Crawler.init_state 0)) as (_ & _ & H & _).
  destruct (H Py.WebDriverException 0%nat) as [Hi _]; [reflexivity|reflexivity|].
  exact Hi.
Defined.

(** ** More on the rounds of [crawl] *)
Section round_more.
Import Py Urllib Selenium Crawler Notions Behaviour.
Variable chk : string → bool.
Variable W : world.
Variable self : config.

Lemma image_step_resolved (img : element) (acc out : gset string) :
  image_step chk self img acc = Ok out →
  (∀ u, u ∈ acc → resolved_link chk self u) →
  ∀ u, u ∈ out → resolved_link chk self u.
Proof.
  unfold image_step, try_except.
  destruct (bind (image_source img) (λ src, keep_valid chk self src acc))
    as [x|x] eqn:E.
  - intros [= <-]. destruct (image_source img) as [src|]; [|discriminate].
    cbn [bind] in E. by eapply keep_valid_resolved.
  - destruct (is_Exception x); [by intros [= <-]|discriminate].
Qed.

Lemma for_each_image_step_resolved (imgs : list element) (acc out : gset string) :
  for_each (image_step chk self) imgs acc = Ok out →
  (∀ u, u ∈ acc → resolved_link chk self u) →
  ∀ u, u ∈ out → resolved_link chk self u.
Proof.
  revert acc. induction imgs as [|e rest IH]; intros acc; cbn [for_each].
  - by intros [= <-].
  - destruct (image_step chk self e acc) as [acc'|] eqn:E; cbn [bind]; [|discriminate].
    intros H Hacc. eapply IH; [done|]. by eapply image_step_resolved.
Qed.

(** Every URL [extract_images] returns passed the scope check. *)
Lemma extract_images_resolved (url : string) (st : state) (images : gset string)
    (st' : state) :
  extract_images chk W self url st = (Ok images, st') →
  ∀ u, u ∈ images → resolved_link chk self u.
Proof.
  unfold extract_images. unfold bindM at 1. cbn [modify]. unfold try_exceptM.
  match goal with |- context [match ?m ?s with _ => _ end] =>
    destruct (m s) as [[out|x] st1] eqn:E end.
  - intros [= <- <-].
    apply bindM_inv in E as [(? & s1 & _ & E)|(? & _ & [=])].
    apply bindM_inv in E as [(? & s2 & _ & E)|(? & _ & [=])].
    apply bindM_inv in E as [(elements & s3 & _ & E)|(? & _ & [=])].
    injection E as E _. eapply for_each_image_step_resolved; [done|set_solver].
  - destruct (is_Exception x); [|discriminate].
    intros [= <- _]. set_solver.
Qed.

(** What follows the harvest in a round touches neither set. *)
Lemma after_harvest_keeps (c : cursor) (st : state) (r : res step) (st' : state) :
  (exec has_next <- has_next_page W self;
   exec next_url <- (if has_next then go_to_next_page W self else retM None);
   if truthy next_url && negb (opt_eqb next_url (Some (cur_url c))) then
     match next_url with
     | Some u => retM (Continue (advance FromPager u c))
     | None => retM Break
     end
   else
     exec links <- extract_links chk W self (cur_url c);
     exec st <- get_state;
     match filter (λ link, link ∉ visited_urls st) (elements links) with
     | link :: _ => retM (Continue (advance FromLinks link c))
     | [] => retM Break
     end) st = (r, st') →
  keeps st st'.
Proof.
  revert st r st'.
  apply frames_bind; [apply frames_has_next_page|]. intros has_next.
  apply frames_bind.
  { destruct has_next; [apply frames_go_to_next_page|apply frames_ret]. }
  intros next_url. destruct (truthy next_url && _).
  { destruct next_url; apply frames_ret. }
  apply frames_bind; [apply frames_extract_links|]. intros links.
  apply frames_bind.
  { intros st r st' [= _ <-]. apply keeps_refl. }
  intros st1. destruct (filter _ _); apply frames_ret.
Qed.

(** The images of a round: what [extract_images] returned for the current
    URL joins the image set, and nothing else does. *)
Lemma loop_body_image_urls (c : cursor) (st : state) (r : res step) (st' : state) :
  cur_url c ∉ visited_urls st →
  loop_body chk W self c st = (r, st') →
  image_urls st' =
    image_urls st ∪
    match (extract_images chk W self (cur_url c)
             (set_visited_urls ({[cur_url c]} ∪ visited_urls st) st)).1 with
    | Ok images => images
    | Raise _ => ∅
    end.
Proof.
  intros Hnew H. unfold loop_body in H.
  unfold bindM at 1, get_state in H.
  destruct (decide (cur_url c ∈ visited_urls st)); [done|].
  unfold bindM at 1 in H. cbn [modify] in H.
  set (st1 := set_visited_urls ({[cur_url c]} ∪ visited_urls st) st) in *.
  apply bindM_inv in H as [(images & st2 & E2 & H)|(e & E2 & ->)].
  2:{ rewrite E2. cbn [fst].
      apply extract_images_effect in E2 as (_ & -> & _). cbn. set_solver. }
  rewrite E2. cbn [fst].
  apply extract_images_effect in E2 as (_ & I2 & _).
  apply bindM_inv in H as [([] & st3 & E3 & H)|(e & E3 & ->)].
  2:{ destruct (decide (images = ∅)); [discriminate|].
      unfold bindM, get_state, modify in E3. discriminate. }
  apply after_harvest_keeps in H as (_ & I4 & _). rewrite I4.
  destruct (decide (images = ∅)) as [->|Hne].
  - injection E3 as <-. rewrite I2. cbn. set_solver.
  - unfold bindM, get_state, modify in E3. injection E3 as <-.
    cbn [image_urls set_image_urls]. by rewrite I2.
Qed.

(** X3.  In every state a run goes through, each URL of the image set is
    the resolution of some attribute value that passed [is_valid_url], and so
    has the host of the seed. *)
Theorem image_urls_in_scope (seed : string) (p : nat) (st : state) :
  passes chk W self seed (init_state p) st →
  ∀ u, u ∈ image_urls st → resolved_link chk self u ∧ in_scope chk self u.
Proof.
  intros Hp u Hu.
  assert (resolved_link chk self u) as Hr; [|split; [done|by apply resolved_link_in_scope]].
  assert (∀ c st1 r st2, (∀ v, v ∈ image_urls st1 → resolved_link chk self v) →
            loop_body chk W self c st1 = (r, st2) →
            ∀ v, v ∈ image_urls st2 → resolved_link chk self v) as Hstep.
  { intros c st1 r st2 IH Hbody v Hv.
    destruct (decide (cur_url c ∈ visited_urls st1)) as [Hin|Hnew].
    { rewrite (loop_body_visited _ _ _ _ _ Hin) in Hbody.
      injection Hbody as _ <-. by apply IH. }
    rewrite (loop_body_image_urls _ _ _ _ Hnew Hbody) in Hv.
    apply elem_of_union in Hv as [Hv|Hv]; [by apply IH|].
    destruct (extract_images chk W self (cur_url c) _) as [[images|] st3] eqn:E;
      cbn [fst] in Hv; [|set_solver].
    by eapply extract_images_resolved. }
  assert (∀ c st1, reachable chk W self seed (init_state p) c st1 →
            ∀ v, v ∈ image_urls st1 → resolved_link chk self v) as Hreach.
  { induction 1 as [|c st1 c' st2 _ IH Htest Hbody]; [cbn; set_solver|].
    by eapply Hstep. }
  destruct Hp as [c st1 Hr|c st0 r st1 Hr Htest Hbody].
  - by eapply Hreach.
  - eapply Hstep; [|done..]. by eapply Hreach.
Qed.

(** X11.  A page that fails to load, or does not get ready in time, still
    counts as visited and harvested, and adds no image. *)
Theorem failed_page_is_visited_without_images (c : cursor) (st : state)
    (r : res step) (st' : state) (e : exn) (p : nat) :
  cur_url c ∉ visited_urls st →
  is_Exception e = true →
  get W (cur_url c) (driver st) = (Raise e, p)
  ∨ (get W (cur_url c) (driver st) = (Ok tt, p) ∧ wait_ready (pages W p) = Raise e) →
  loop_body chk W self c st = (r, st') →
  cur_url c ∈ visited_urls st'
  ∧ harvested st' = cur_url c :: harvested st
  ∧ image_urls st' = image_urls st.
Proof.
  intros Hnew He Hfail Hbody.
  destruct (loop_body_round _ _ _ _ _ _ _ Hnew Hbody) as (V & H & _).
  repeat split; [rewrite V; set_solver|done|].
  rewrite (loop_body_image_urls _ _ _ _ Hnew Hbody).
  rewrite (extract_images_of_failed_page chk W self (cur_url c)
             (set_visited_urls ({[cur_url c]} ∪ visited_urls st) st) e p He Hfail).
  set_solver.
Qed.

End round_more.

Lemma image_urls_in_scope_witness :
  Notions.in_scope Sample.any_host Sample.settings "http://example.com/img/b.png".
Proof.
  eapply (image_urls_in_scope Sample.any_host Sample.gallery Sample.settings
            Sample.seed 0).
  - eapply Notions.pass_round; [apply Notions.reach_start|reflexivity|].
    apply surjective_pairing.
  - refine (bool_decide_unpack _ _). vm_compute. exact I.
Defined.

Lemma failed_page_is_visited_without_images_witness :
  Crawler.image_urls
    (Crawler.loop_body Sample.any_host Sample.offline Sample.settings
       (Notions.start Sample.seed) (Crawler.init_state 0)).2 = ∅.
Proof.
  eapply (failed_page_is_visited_without_images Sample.any_host Sample.offline
            Sample.settings (Notions.start Sample.seed) (Crawler.init_state 0)
            _ _ Py.WebDriverException 0%nat).
  - cbn. set_solver.
  - reflexivity.
  - left. reflexivity.
  - apply surjective_pairing.
Defined.

(** ** More on pagination *)
Section pagination_more.
Import Py Urllib Selenium Crawler Notions Behaviour.
Variable W : world.
Variable self : config.

Lemma calm_displayed (b : element) (x : exn) :
  calm b → is_displayed b = Raise x → is_Exception x = true.
Proof. intros (_ & H & _) E. destruct x; try reflexivity. by destruct H. Qed.

Lemma calm_enabled (b : element) (x : exn) :
  calm b → is_enabled b = Raise x → is_Exception x = true.
Proof. intros (_ & _ & H) E. destruct x; try reflexivity. by destruct H. Qed.

Lemma button_is_next_ready (b : element) :
  calm b → button_is_next b = Ok (next_ready b).
Proof.
  intros Hc. unfold button_is_next, displayed_and_enabled, next_ready.
  destruct (is_displayed b) as [[]|x] eqn:Ed; cbn [bind try_except].
  - destruct (is_enabled b) as [[]|x] eqn:Ee; cbn [bind try_except].
    + destruct (get_attribute b "outerHTML") as [[h|]|x] eqn:Eh;
        cbn [bind try_except is_Exception]; try done.
      destruct Hc as (Hu & _). by rewrite (uninterrupted_is_Exception _ _ _ Hu Eh).
    + done.
    + by rewrite (calm_enabled _ _ Hc Ee).
  - done.
  - by rewrite (calm_displayed _ _ Hc Ed).
Qed.

Lemma any_next_button_ready (buttons : list element) :
  Forall calm buttons → any_next_button buttons = Ok (existsb next_ready buttons).
Proof.
  induction 1 as [|b rest Hb _ IH]; [done|].
  cbn [any_next_button existsb]. rewrite (button_is_next_ready _ Hb). cbn [bind].
  by destruct (next_ready b).
Qed.

(** X4.  [has_next_page] changes nothing and lets no [Exception] out.  When
    the query for controls fails it answers [False]; otherwise it answers
    whether some control is displayed, enabled and has markup, a control
    whose checks fail counting as not ready. *)
Theorem has_next_page_answer (st : state) :
  (has_next_page W self st).2 = st
  ∧ (∀ e, (has_next_page W self st).1 = Raise e → e = KeyboardInterrupt)
  ∧ (∀ e, find_elements (pages W (driver st)) (ByCssSelector (next_selector self))
          = Raise e →
          is_Exception e = true → (has_next_page W self st).1 = Ok false)
  ∧ (∀ buttons,
       find_elements (pages W (driver st)) (ByCssSelector (next_selector self))
       = Ok buttons →
       Forall calm buttons →
       (has_next_page W self st).1 = Ok (existsb next_ready buttons)).
Proof.
  repeat split.
  - unfold has_next_page, try_exceptM, bindM, driver_find_elements, liftM, retM.
    destruct (find_elements _ _) as [buttons|e]; cbn.
    + by destruct (any_next_button buttons) as [|e]; [|destruct (is_Exception e)].
    + by destruct (is_Exception e).
  - intros e. unfold has_next_page. apply try_exceptM_value.
  - intros e He Hx.
    unfold has_next_page, try_exceptM, bindM, driver_find_elements.
    rewrite He. by rewrite Hx.
  - intros buttons Hb Hc.
    unfold has_next_page, try_exceptM, bindM, driver_find_elements, liftM.
    rewrite Hb. by rewrite (any_next_button_ready _ Hc).
Qed.

(** *** What [go_to_next_page] can return *)

Lemma preserves_ret {A X : Type} (f : state → X) (a : A) : preserves f (retM a).
Proof. by intros st r st' [= _ <-]. Qed.

Lemma preserves_lift {A X : Type} (f : state → X) (x : res A) : preserves f (liftM x).
Proof. by intros st r st' [= _ <-]. Qed.

Lemma preserves_bind {A B X : Type} (f : state → X) (m : M A) (k : A → M B) :
  preserves f m → (∀ a, preserves f (k a)) → preserves f (bindM m k).
Proof.
  intros Hm Hk st r st'. unfold bindM.
  destruct (m st) as [[a|e] st1] eqn:E.
  - intros H. rewrite (Hk _ _ _ _ H). by eapply Hm.
  - intros [= _ <-]. by eapply Hm.
Qed.

Lemma preserves_try {A X : Type} (f : state → X) (m : M A) (h : exn → M A) :
  preserves f m → (∀ e, preserves f (h e)) → preserves f (try_exceptM m h).
Proof.
  intros Hm Hh st r st'. unfold try_exceptM.
  destruct (m st) as [[a|e] st1] eqn:E.
  - intros [= _ <-]. by eapply Hm.
  - destruct (is_Exception e).
    + intros H. rewrite (Hh _ _ _ _ H). by eapply Hm.
    + intros [= _ <-]. by eapply Hm.
Qed.

Lemma preserves_requested_click (e : element) : preserves requested (element_click e).
Proof.
  intros st r st'. unfold element_click.
  by destruct (click e) as [[p|]|x]; intros [= _ <-].
Qed.

Lemma preserves_requested_wait_url_change (current : string) :
  preserves requested (wait_url_change W current).
Proof.
  apply preserves_bind; [by intros st r st' [= _ <-]|].
  intros u. destruct (negb _); [apply preserves_ret|apply preserves_lift].
Qed.

(** Trying a control never issues [driver.get]. *)
Lemma preserves_requested_try_button (current : string) (button : element) :
  preserves requested (try_button W current button).
Proof.
  unfold try_button. apply preserves_try; [|intros; apply preserves_ret].
  apply preserves_bind; [apply preserves_lift|]. intros ok.
  destruct ok; [|apply preserves_ret].
  apply preserves_bind; [apply preserves_lift|]. intros next_url.
  destruct (truthy next_url && _); [|apply preserves_ret].
  apply preserves_bind; [apply preserves_lift|]. intros _.
  apply preserves_bind; [apply preserves_requested_click|]. intros _.
  apply preserves_bind; [by intros st r st' [= _ <-]|]. intros _.
  apply preserves_bind; [apply preserves_requested_wait_url_change|]. intros _.
  apply preserves_bind; [by intros st r st' [= _ <-]|]. intros u.
  apply preserves_ret.
Qed.

Lemma preserves_requested_click_loop (current : string) (buttons : list element) :
  preserves requested (click_loop W current buttons).
Proof.
  induction buttons as [|b rest IH]; cbn [click_loop]; [apply preserves_ret|].
  apply preserves_bind; [apply preserves_requested_try_button|].
  intros [u|]; [apply preserves_ret|exact IH].
Qed.

Lemma liftM_inv {A : Type} (x r : res A) (st st' : state) :
  liftM x st = (r, st') → r = x ∧ st' = st.
Proof. by intros [= <- <-]. Qed.

(** A control that takes the crawl further leaves the browser on a URL
    other than the one it started from. *)
Lemma try_button_moves (current : string) (button : element) (st : state)
    (u : string) (st' : state) :
  try_button W current button st = (Ok (Some u), st') →
  u ≠ current ∧ current_url (pages W (driver st')) = Ok u.
Proof.
  unfold try_button, try_exceptM.
  match goal with |- context [match ?m st with _ => _ end] =>
    destruct (m st) as [[x|x] st1] eqn:E end.
  2:{ destruct (is_Exception x); discriminate. }
  intros [= -> ->].
  apply bindM_inv in E as [(ok & s1 & _ & E)|(? & _ & [=])].
  destruct ok; [|discriminate].
  apply bindM_inv in E as [(next_url & s2 & _ & E)|(? & _ & [=])].
  destruct (truthy next_url && _); [|discriminate].
  apply bindM_inv in E as [(? & s3 & _ & E)|(? & _ & [=])].
  apply bindM_inv in E as [(? & s4 & _ & E)|(? & _ & [=])].
  apply bindM_inv in E as [(? & s5 & _ & E)|(? & _ & [=])].
  apply bindM_inv in E as [(? & s6 & Hw & E)|(? & _ & [=])].
  apply bindM_inv in E as [(v & s7 & Hu & E)|(? & _ & [=])].
  injection E as -> ->.
  unfold driver_current_url in Hu. injection Hu as Hu <-.
  unfold wait_url_change, bindM, driver_current_url in Hw.
  destruct (current_url (pages W (driver s5))) as [w|] eqn:Ew; [|discriminate].
  destruct (negb (String.eqb w current)) eqn:En; [|discriminate].
  injection Hw as _ <-. rewrite Ew in Hu. injection Hu as ->.
  split; [|done]. intros ->. by rewrite String.eqb_refl in En.
Qed.

Lemma click_loop_moves (current : string) (buttons : list element) (st : state)
    (u : string) (st' : state) :
  click_loop W current buttons st = (Ok (Some u), st') →
  u ≠ current ∧ current_url (pages W (driver st')) = Ok u.
Proof.
  revert st. induction buttons as [|b rest IH]; intros st; cbn [click_loop].
  - discriminate.
  - intros H. apply bindM_inv in H as [([v|] & s1 & E & H)|(? & _ & [=])].
    + injection H as -> ->. by eapply try_button_moves.
    + by eapply IH.
Qed.

(** A link that is followed passed the test of the second loop, and is the
    last thing requested. *)
Lemma try_link_follows (current : string) (link : element) (st : state)
    (u : string) (st' : state) :
  try_link W current link st = (Ok (Some u), st') →
  current_url (pages W (driver st')) = Ok u
  ∧ ∃ h, requested st' = h :: requested st ∧ follow_test current h = true.
Proof.
  unfold try_link, try_exceptM.
  match goal with |- context [match ?m st with _ => _ end] =>
    destruct (m st) as [[x|x] st1] eqn:E end.
  2:{ destruct (is_Exception x); discriminate. }
  intros [= -> ->].
  apply bindM_inv in E as [([h|] & s1 & Hh & E)|(? & _ & [=])]; [|discriminate].
  apply liftM_inv in Hh as [_ ->].
  destruct (follow_test current h) eqn:Ef; [|discriminate].
  apply bindM_inv in E as [([] & s2 & Hg & E)|(? & _ & [=])].
  apply bindM_inv in E as [([] & s3 & Hw & E)|(? & _ & [=])].
  apply bindM_inv in E as [(v & s4 & Hu & E)|(? & _ & [=])].
  injection E as -> ->. injection Hw as _ <-. injection Hu as Hu <-.
  split; [done|]. exists h. split; [|done].
  unfold driver_get in Hg. destruct (get W h (driver st)) as [r p].
  by injection Hg as _ <-.
Qed.

Lemma link_loop_follows (current : string) (links : list element) (st : state)
    (u : string) (st' : state) :
  link_loop W current links st = (Ok (Some u), st') →
  current_url (pages W (driver st')) = Ok u
  ∧ ∃ h rest, requested st' = h :: rest ∧ follow_test current h = true.
Proof.
  revert st. induction links as [|l rest IH]; intros st; cbn [link_loop].
  - discriminate.
  - intros H. apply bindM_inv in H as [([v|] & s1 & E & H)|(? & _ & [=])].
    + injection H as -> ->. apply try_link_follows in E as (Hu & h & Hr & Hf).
      split; [done|]. by exists h, (requested st).
    + by eapply IH.
Qed.

Lemma follow_test_words (current h : string) :
  follow_test current h = true →
  contains "page" (lower h) = true ∨ contains "p=" (lower h) = true.
Proof.
  unfold follow_test. intros H. apply orb_true_iff in H as [H|H]; [left|by right].
  by apply andb_true_iff in H as [_ H].
Qed.

(** X5.  When [go_to_next_page] returns a URL, it is the URL the browser
    is on.  Either a control was clicked: then no [driver.get] was issued and
    the URL differs from the one the browser was on before.  Or the last
    [driver.get] went to a link that passed the test of the heuristic scan,
    whose [href] contains [page] or [p=] in any letter case: a link matched
    only by the [/2] part of the selector is never followed. *)
Theorem go_to_next_page_outcomes (st st' : state) (cur u : string) :
  current_url (pages W (driver st)) = Ok cur →
  go_to_next_page W self st = (Ok (Some u), st') →
  current_url (pages W (driver st')) = Ok u
  ∧ ((u ≠ cur ∧ requested st' = requested st)
     ∨ (∃ h rest, requested st' = h :: rest
                  ∧ follow_test cur h = true
                  ∧ (contains "page" (lower h) = true
                     ∨ contains "p=" (lower h) = true))).
Proof.
  intros Hcur H. unfold go_to_next_page in H.
  apply bindM_inv in H as [(cur' & s0 & E0 & H)|(? & _ & [=])].
  unfold driver_current_url in E0. rewrite Hcur in E0. injection E0 as <- <-.
  unfold try_exceptM in H.
  match type of H with context [match ?m st with _ => _ end] =>
    destruct (m st) as [[x|x] st1] eqn:E end.
  2:{ destruct (is_Exception x); discriminate. }
  injection H as -> ->.
  apply bindM_inv in E as [(buttons & s1 & Hb & E)|(? & _ & [=])].
  injection Hb as _ <-.
  apply bindM_inv in E as [([v|] & s2 & Hc & E)|(? & _ & [=])].
  - injection E as -> ->.
    pose proof (preserves_requested_click_loop _ _ _ _ _ Hc) as Hr.
    apply click_loop_moves in Hc as [Hne Hu]. split; [done|]. by left.
  - apply bindM_inv in E as [(links & s3 & Hl & E)|(? & _ & [=])].
    injection Hl as _ <-.
    apply link_loop_follows in E as (Hu & h & rest & Hr & Hf).
    split; [done|]. right. exists h, rest. repeat split; try done.
    by eapply follow_test_words.
Qed.

(** X6.  [go_to_next_page] reads [driver.current_url] before its [try]:
    a failure of that read is the only [Exception] it lets out. *)
Theorem go_to_next_page_failures (st : state) (e : exn) :
  (go_to_next_page W self st).1 = Raise e →
  e = KeyboardInterrupt ∨ current_url (pages W (driver st)) = Raise e.
Proof.
  unfold go_to_next_page, bindM, driver_current_url.
  destruct (current_url (pages W (driver st))) as [cur|x] eqn:E.
  - intros H. left. by eapply try_exceptM_value.
  - intros [= <-]. by right.
Qed.

End pagination_more.

Lemma has_next_page_answer_witness :
  (Crawler.has_next_page Sample.offsite Sample.settings (Crawler.init_state 1)).1
  = Py.Ok true.
Proof.
  destruct (has_next_page_answer Sample.offsite Sample.settings (Crawler.init_state 1))
    as (_ & _ & _ & H).
  apply (H [Sample.control (Some Sample.elsewhere) (Some 2%nat)]); [reflexivity|].
  apply Forall_cons_2; [|apply Forall_nil_2].
  split; [|split; discriminate].
  intros name. unfold Sample.control, Sample.link_attributes. cbn.
  repeat match goal with |- context [if ?c then _ else _] => destruct c end;
    discriminate.
Defined.

Lemma go_to_next_page_outcomes_witness :
  Py.contains "page" (Py.lower Sample.listing_url) = true
  ∨ Py.contains "p=" (Py.lower Sample.listing_url) = true.
Proof.
  destruct (go_to_next_page_outcomes Sample.self_linked Sample.listing
              (Crawler.init_state 1)
              (Crawler.log_request Sample.listing_url (Crawler.init_state 1))
              Sample.listing_url Sample.listing_url eq_refl eq_refl)
    as (_ & [[Hne _]|(h & rest & Hr & _ & Hw)]).
  - by destruct Hne.
  - injection Hr as <- _. exact Hw.
Defined.

Lemma go_to_next_page_failures_witness :
  Py.WebDriverException = Py.KeyboardInterrupt
  ∨ Selenium.current_url (Selenium.pages Sample2.crashed 0)
    = Py.Raise Py.WebDriverException.
Proof.
  apply (go_to_next_page_failures Sample2.crashed Sample.settings
           (Crawler.init_state 0)).
  reflexivity.
Defined.

(** ** More on [crawl] as a whole *)
Section crawl_more.
Import Py Urllib Selenium Crawler Notions Behaviour.
Variable chk : string → bool.
Variable W : world.
Variable self : config.

Lemma cleanup_keeps (st : state) (r : res unit) (st' : state) :
  cleanup W st = (r, st') →
  visited_urls st' = visited_urls st ∧ image_urls st' = image_urls st
  ∧ harvested st' = harvested st ∧ report_file st' = report_file st.
Proof.
  unfold cleanup, try_exceptM, bindM, get_state, modify, liftM, retM. cbn.
  destruct (quit W) as [[]|e]; [by intros [= _ <-]|].
  destruct (is_Exception e); by intros [= _ <-].
Qed.


Lemma generate_html_report_keeps (st : state) (r : res unit) (st' : state) :
  generate_html_report W st = (r, st') →
  visited_urls st' = visited_urls st ∧ image_urls st' = image_urls st
  ∧ harvested st' = harvested st.
Proof.
  destruct (decide (image_urls st = ∅)) as [He|Hne].
  - rewrite (generate_html_report_empty _ _ He). by intros [= _ <-].
  - rewrite (generate_html_report_nonempty _ _ Hne).
    destruct (write_report W); by intros [= _ <-].
Qed.

Lemma loop_body_grows (c : cursor) (st : state) (r : res step) (st' : state) :
  loop_body chk W self c st = (r, st') →
  visited_urls st ⊆ visited_urls st' ∧ image_urls st ⊆ image_urls st'
  ∧ report_file st' = report_file st.
Proof.
  intros H. destruct (decide (cur_url c ∈ visited_urls st)) as [Hin|Hnew].
  - rewrite (loop_body_visited _ _ _ _ _ Hin) in H. by injection H as _ <-.
  - destruct (loop_body_round _ _ _ _ _ _ _ Hnew H) as (V & _ & I & R & _).
    rewrite V. repeat split; [set_solver|done..].
Qed.

Lemma crawl_loop_grows (fuel : nat) (c : cursor) (st : state) (r : res unit)
    (st' : state) :
  crawl_loop chk W self fuel c st = Some (r, st') →
  visited_urls st ⊆ visited_urls st' ∧ image_urls st ⊆ image_urls st'
  ∧ report_file st' = report_file st.
Proof.
  revert c st. induction fuel as [|fuel IH]; intros c st; cbn [crawl_loop].
  - destruct (loop_test self c); [discriminate|]. by intros [= _ <-].
  - destruct (loop_test self c); [|by intros [= _ <-]].
    destruct (loop_body chk W self c st) as [[[c'|]|e] st1] eqn:Hbody;
      apply loop_body_grows in Hbody as (V & I & R).
    + intros H. apply IH in H as (V' & I' & R'). repeat split; [set_solver..|congruence].
    + by intros [= _ <-].
    + by intros [= _ <-].
Qed.

(** X7.  With a positive [MAX_PAGES], [crawl] returns after at most
    [MAX_PAGES] rounds of its loop, whatever the site does. *)
Theorem crawl_returns_within_cap (fuel : nat) (st : state) :
  0 < max_pages self →
  max_pages self ≤ Z.of_nat fuel →
  is_Some (crawl chk W self fuel st).
Proof.
  intros Hpos Hf. unfold crawl.
  destruct (base_url self) as [seed|]; [|eauto].
  destruct (String.eqb seed EmptyString); [eauto|].
  by apply crawl_from_returns.
Qed.




(** X13.  A run never removes a URL from the visited set or from the image
    set. *)
Theorem crawl_sets_only_grow (fuel : nat) (st : state) (r : res unit) (st' : state) :
  crawl chk W self fuel st = Some (r, st') →
  visited_urls st ⊆ visited_urls st' ∧ image_urls st ⊆ image_urls st'.
Proof.
  unfold crawl.
  destruct (base_url self) as [seed|]; [|by intros [= _ <-]].
  destruct (String.eqb seed EmptyString); [by intros [= _ <-]|].
  unfold crawl_from.
  destruct (crawl_loop chk W self fuel _ st) as [[r1 st1]|] eqn:E; [|discriminate].
  apply crawl_loop_grows in E as (V & I & _).
  destruct r1 as [[]|e].
  - destruct (generate_html_report W st1) as [r2 st2] eqn:E2.
    apply generate_html_report_keeps in E2 as (V2 & I2 & _).
    intros [= H]. apply cleanup_keeps in H as (V3 & I3 & _).
    rewrite V3, V2, I3, I2. done.
  - intros [= H]. apply cleanup_keeps in H as (V3 & I3 & _).
    rewrite V3, I3. done.
Qed.

(** X15.  At the head of the loop the page counter is the number of pages
    visited so far, and the first page visited is the seed. *)
Theorem page_count_counts_visited (seed : string) (p : nat) (c : cursor) (st : state) :
  reachable chk W self seed (init_state p) c st →
  page_count c = Z.of_nat (size (visited_urls st))
  ∧ page_count c = Z.of_nat (length (harvested st))
  ∧ match harvested st with
    | [] => cur_url c = seed
    | _ :: _ => last (harvested st) = Some seed
    end.
Proof.
  induction 1 as [|c st c' st' _ (IHs & IHl & IHf) Htest Hbody].
  - cbn. by rewrite size_empty.
  - destruct (decide (cur_url c ∈ visited_urls st)) as [Hin|Hnew].
    { rewrite (loop_body_visited _ _ _ _ _ Hin) in Hbody. discriminate. }
    destruct (loop_body_round _ _ _ _ _ _ _ Hnew Hbody) as (V & H & _ & _ & _ & Hc).
    destruct (Hc c' eq_refl) as (o & u & -> & _). cbn [advance page_count].
    rewrite V, H, size_union, size_singleton by set_solver.
    repeat split; [lia|cbn [length]; lia|].
    destruct (harvested st) as [|x rest]; [by rewrite IHf|].
    by rewrite last_cons, IHf.
Qed.

End crawl_more.

Lemma crawl_returns_within_cap_witness :
  is_Some (Crawler.crawl Sample.any_host Sample.gallery Sample.settings 10
             (Crawler.init_state 0)).
Proof.
  apply (crawl_returns_within_cap Sample.any_host Sample.gallery Sample.settings 10);
    [reflexivity|vm_compute; discriminate].
Defined.




Lemma crawl_sets_only_grow_witness :
  ∃ st', Crawler.crawl Sample.any_host Sample.gallery Sample.settings 5 Sample2.resumed
         = Some (Py.Ok tt, st')
         ∧ Crawler.visited_urls Sample2.resumed ⊆ Crawler.visited_urls st'
         ∧ Crawler.image_urls Sample2.resumed ⊆ Crawler.image_urls st'
         ∧ "http://example.com/old" ∈ Crawler.visited_urls st'
         ∧ "http://example.com/kept.png" ∈ Crawler.image_urls st'
         ∧ size (Crawler.visited_urls st') = 2%nat
         ∧ size (Crawler.image_urls st') = 3%nat.
Proof.
  assert (∃ st', Crawler.crawl Sample.any_host Sample.gallery Sample.settings 5
                   Sample2.resumed = Some (Py.Ok tt, st')
                 ∧ size (Crawler.visited_urls st') = 2%nat
                 ∧ size (Crawler.image_urls st') = 3%nat) as (st' & E & Hv & Hi).
  { eexists. split; [vm_compute; reflexivity|]. split; vm_compute; reflexivity. }
  destruct (crawl_sets_only_grow Sample.any_host Sample.gallery Sample.settings 5
              Sample2.resumed (Py.Ok tt) st' E) as [Hvisited Himages].
  exists st'. split; [exact E|]. split; [exact Hvisited|]. split; [exact Himages|].
  split; [|split; [|split; [exact Hv|exact Hi]]].
  - apply Hvisited. unfold Sample2.resumed. cbn [Crawler.visited_urls]. set_solver.
  - apply Himages. unfold Sample2.resumed. cbn [Crawler.image_urls]. set_solver.
Defined.

Lemma page_count_counts_visited_witness :
  ∃ c st, Notions.reachable Sample.any_host Sample.offsite Sample.settings Sample.seed
            (Crawler.init_state 0) c st
          ∧ Crawler.cur_url c = Sample.elsewhere
          ∧ Crawler.page_count c = Z.of_nat (size (Crawler.visited_urls st)).
Proof.
  assert (∃ c st, Notions.reachable Sample.any_host Sample.offsite Sample.settings
                    Sample.seed (Crawler.init_state 0) c st
                  ∧ Crawler.cur_url c = Sample.elsewhere) as (c & st & H & Hc).
  { eexists _, _. split.
    - eapply Notions.reach_round; [apply Notions.reach_start|reflexivity|].
      vm_compute. reflexivity.
    - reflexivity. }
  exists c, st. repeat split; [exact H|exact Hc|].
  apply (page_count_counts_visited _ _ _ _ _ _ _ H).
Defined.

(** ** More on the report *)
Section report_more.
Import Py Urllib Selenium Crawler Notions Behaviour.

Lemma entries_enumerate (idx : nat) (l : list string) :
  entries (enumerate idx l) = l.
Proof.
  revert idx. induction l as [|x l IH]; intros idx; [done|].
  unfold entries in *. cbn. by rewrite IH.
Qed.

Lemma numbers_enumerate (idx : nat) (l : list string) :
  numbers (enumerate idx l) = seq idx (length l).
Proof.
  revert idx. induction l as [|x l IH]; intros idx; [done|].
  unfold numbers in *. cbn. by rewrite IH.
Qed.

Lemma str_le_total : Total str_le.
Proof.
  intros a b. unfold str_le.
  destruct (String.leb_total a b) as [H|H]; rewrite H; [by left|by right].
Qed.

(** X12.  The report counts the images and lists each of them exactly
    once, in ascending order, numbered from 1 without a gap. *)
Theorem report_lists_images_sorted (images : gset string) :
  doc_count (render images) = size images
  ∧ numbers (doc_items (render images)) = seq 1 (size images)
  ∧ Sorted str_le (entries (doc_items (render images)))
  ∧ NoDup (entries (doc_items (render images)))
  ∧ ∀ u, u ∈ entries (doc_items (render images)) ↔ u ∈ images.
Proof.
  unfold render. cbn [doc_count doc_items].
  rewrite entries_enumerate, numbers_enumerate.
  pose proof (merge_sort_Permutation str_le (elements images)) as Hp.
  repeat split.
  - f_equal. by rewrite Hp.
  - apply (Sorted_merge_sort str_le (Total0 := str_le_total)).
  - rewrite Hp. apply NoDup_elements.
  - rewrite Hp. apply elem_of_elements.
  - rewrite Hp. apply elem_of_elements.
Qed.

End report_more.

(** Two images, listed in ascending order. *)
Example report_of_two_images :
  Crawler.render Sample2.two_images
  = Crawler.mkDocument 2 [(1%nat, "http://example.com/a.png");
                          (2%nat, "http://example.com/b.png")].
Proof. vm_compute. reflexivity. Qed.


(** ** More on start-up *)
Section startup_more.
Import Py Urllib Selenium Crawler Notions Behaviour.

(** X16.  [setup_driver] fails only with the exception it builds itself
    after both attempts to start Chrome failed, or with a
    [KeyboardInterrupt].  When it succeeds the session is the one started
    with the chosen service, or, only if that start failed, the default one.
    A driver that cannot be installed is not fatal: Chrome is then started
    with the system driver. *)
Theorem setup_driver_outcomes (h : host) (l : list effect) :
  (∀ e l', setup_driver h l = (Raise e, l') →
           e = PlainException ∨ e = KeyboardInterrupt)
  ∧ (∀ p l', setup_driver h l = (Ok p, l') →
             start_chrome h (chosen_service h) = Ok p
             ∨ (∃ e, start_chrome h (chosen_service h) = Raise e
                     ∧ is_Exception e = true
                     ∧ start_default_chrome h = Ok p))
  ∧ (∀ e p, install_driver h = Raise e → is_Exception e = true →
            start_chrome h None = Ok p →
            setup_driver h l = (Ok p, l ++ [InstallDriver; StartChrome])).
Proof.
  unfold setup_driver, try_exceptI, bindI, call, retI, pureI, chosen_service.
  repeat split.
  - intros e l'.
    destruct (install_driver h) as [path|e0]; [|destruct (is_Exception e0) eqn:E0].
    + destruct (start_chrome h (Some path)) as [p|e1]; [discriminate|].
      destruct (is_Exception e1) eqn:E1; [|intros [= <- _]; right; by apply not_Exception].
      destruct (start_default_chrome h) as [q|e2]; [discriminate|].
      destruct (is_Exception e2) eqn:E2; intros [= <- _]; [by left|].
      right. by apply not_Exception.
    + destruct (start_chrome h None) as [p|e1]; [discriminate|].
      destruct (is_Exception e1) eqn:E1; [|intros [= <- _]; right; by apply not_Exception].
      destruct (start_default_chrome h) as [q|e2]; [discriminate|].
      destruct (is_Exception e2) eqn:E2; intros [= <- _]; [by left|].
      right. by apply not_Exception.
    + rewrite E0. intros [= <- _]. right. by apply not_Exception.
  - intros p l'.
    destruct (install_driver h) as [path|e0]; [|destruct (is_Exception e0) eqn:E0].
    + destruct (start_chrome h (Some path)) as [p'|e1]; [intros [= <- _]; by left|].
      destruct (is_Exception e1) eqn:E1; [|discriminate].
      destruct (start_default_chrome h) as [q|e2]; [intros [= <- _]; right; eauto|].
      destruct (is_Exception e2); discriminate.
    + destruct (start_chrome h None) as [p'|e1]; [intros [= <- _]; by left|].
      destruct (is_Exception e1) eqn:E1; [|discriminate].
      destruct (start_default_chrome h) as [q|e2]; [intros [= <- _]; right; eauto|].
      destruct (is_Exception e2); discriminate.
    + rewrite E0. discriminate.
  - intros e p He Hx Hs. rewrite He, Hx, Hs. by rewrite <- app_assoc.
Qed.




End startup_more.

Lemma setup_driver_outcomes_witness :
  Crawler.setup_driver Sample2.machine_uninstalled []
  = (Py.Ok 0%nat, [Crawler.InstallDriver; Crawler.StartChrome]).
Proof.
  eapply (setup_driver_outcomes Sample2.machine_uninstalled []); reflexivity.
Defined.

(** The installed driver fails to start and the default Chrome takes over;
    a result directory that cannot be created ends start-up at once. *)
Example start_up_fallbacks :
  Crawler.setup_driver Sample2.machine_fallback []
  = (Py.Ok 0%nat,
     [Crawler.InstallDriver; Crawler.StartChrome; Crawler.StartDefaultChrome])
  ∧ Crawler.__init__ Sample2.machine_readonly []
    = (Py.Raise Py.OSError, [Crawler.Mkdir "RESULT"]).
Proof. split; reflexivity. Qed.


